(** * Indiv_3: procedural meshes, height-field query and parcel simulation

    A shallow embedding of [src/main.cpp]: the cone and cylinder mesh
    generators, [getTerrainHeight], and the parcel/target update loop of
    [main], followed by the properties of the specification that concern
    them.

    Conventions.
    - C++ [float] is an abstract type [F] with the operations the program
      uses (class [FloatOps]); [Binary32.ops] instantiates it with IEEE 754
      single precision from [SpecFloat], so that every definition runs on
      concrete inputs.  General theorems hold for every instance.
    - C++ [int] and [unsigned int] are [Z] with the 32-bit wrap-around
      written out (module [CInt]).
    - Calls into OpenGL ([Mesh::setup], drawing), the window and the
      console do not change any value modelled here and are left out. *)

From Stdlib Require Import String.
From Stdlib Require Import ZArith List Bool Lia Permutation.
From Stdlib Require Import Floats.SpecFloat.
Import ListNotations.

Local Open Scope Z_scope.

(** ** 32-bit integers *)

Module CInt.

Definition INT_MAX : Z := 2147483647.
Definition INT_MIN : Z := -2147483648.
Definition UINT_MAX : Z := 4294967295.
Definition modulus : Z := 4294967296.

(** Conversion to [unsigned int]: reduction modulo 2^32. *)
Definition to_unsigned (z : Z) : Z := z mod modulus.

(** Two's-complement representative in the [int] range.  Signed overflow
    is undefined in C++; it is modelled as the wrap-around of the
    hardware. *)
Definition wrap_int (z : Z) : Z := (z + 2147483648) mod modulus - 2147483648.

Definition int_add (a b : Z) : Z := wrap_int (a + b).
Definition int_mul (a b : Z) : Z := wrap_int (a * b).
(** [a % b] truncates toward zero. *)
Definition int_rem (a b : Z) : Z := Z.rem a b.
(** [++] on an [int]. *)
Definition int_incr (a : Z) : Z := int_add a 1.

Definition uint_sub (a b : Z) : Z := to_unsigned (a - b).

Definition in_int (z : Z) : Prop := INT_MIN <= z <= INT_MAX.

End CInt.
Import CInt.

(** ** Single-precision arithmetic *)

Class FloatOps (F : Type) : Type := {
  fadd : F -> F -> F;
  fsub : F -> F -> F;
  fmul : F -> F -> F;
  fdiv : F -> F -> F;
  fneg : F -> F;
  fsqrt : F -> F;
  (** [a < b] and [a <= b] *)
  flt : F -> F -> bool;
  fle : F -> F -> bool;
  (** conversion of an integer value, [(float)i] *)
  of_int : Z -> F;
  (** the integer part of a float (truncation toward zero) *)
  ftrunc : F -> Z
}.

Module Binary32.

Definition prec : Z := 24.
Definition emax : Z := 128.

Definition trunc (f : spec_float) : Z :=
  match f with
  | S754_finite s m e =>
      let v := if 0 <=? e then Z.pos m * 2 ^ e else Z.pos m / 2 ^ (- e) in
      if s then - v else v
  | _ => 0
  end.

Definition ops : FloatOps spec_float := {|
  fadd := SFadd prec emax;
  fsub := SFsub prec emax;
  fmul := SFmul prec emax;
  fdiv := SFdiv prec emax;
  fneg := SFopp;
  fsqrt := SFsqrt prec emax;
  flt := SFltb;
  fle := SFleb;
  of_int := fun z => binary_normalize prec emax z 0 false;
  ftrunc := trunc
|}.

End Binary32.

#[export] Existing Instance Binary32.ops.

(** The outcome of calling a C++ function: it returns a value or leaves by
    an exception. *)
Inductive outcome (A : Type) : Type :=
| Returned (a : A)
| Thrown (what : string).
Arguments Returned {A} a.
Arguments Thrown {A} what.

(** The result of code that reads the height map: a value, or a pixel read
    outside the image (undefined behaviour of [sf::Image::getPixel]). *)
Inductive result (A : Type) : Type :=
| Ok (a : A)
| OutOfBounds (x y : Z).
Arguments Ok {A} a.
Arguments OutOfBounds {A} x y.

Definition bind {A B : Type} (r : result A) (k : A -> result B) : result B :=
  match r with
  | Ok a => k a
  | OutOfBounds x y => OutOfBounds x y
  end.

Notation "'do' x <- r ; k" := (bind r (fun x => k))
  (at level 10, x pattern, r at level 100, k at level 200).

(** [for (int i = 0; i < n; ++i) body] over an accumulated state. *)
Definition for_range {A : Type} (n : Z) (body : Z -> A -> A) (a : A) : A :=
  fold_left (fun acc i => body (Z.of_nat i) acc) (seq 0 (Z.to_nat n)) a.

(** ** Height-map image (sf::Image) *)

Record Color : Type := mkColor { red : Z; green : Z; blue : Z; alpha : Z }.

(** Pixels are stored row by row; a default-constructed image, and one
    whose file failed to load, has size 0 x 0 and no pixels. *)
Record Image : Type := mkImage { size_x : Z; size_y : Z; pixels : list Color }.

Definition Image_new : Image := mkImage 0 0 [].

(** [img.getPixel(x, y)]: defined only for coordinates inside the image. *)
Definition getPixel (img : Image) (x y : Z) : result Color :=
  if (x <? size_x img) && (y <? size_y img) then
    match nth_error (pixels img) (Z.to_nat (x + y * size_x img)) with
    | Some c => Ok c
    | None => OutOfBounds x y
    end
  else OutOfBounds x y.

(** A loaded image: positive size that fits [unsigned int], one pixel per
    coordinate. *)
Definition loaded (img : Image) : Prop :=
  0 < size_x img <= UINT_MAX /\ 0 < size_y img <= UINT_MAX /\
  Z.of_nat (length (pixels img)) = size_x img * size_y img.

Section Model.

Context {F : Type} `{FloatOps F}.

(** Decimal literal [n/d], rounded to the nearest float ([n] and [d]
    are exactly representable wherever this is used). *)
Definition flit (n d : Z) : F := fdiv (of_int n) (of_int d).

(** [a > b] is [b < a]. *)
Definition fgt (a b : F) : bool := flt b a.

(** *** glm vectors *)

Record vec3 : Type := mkvec3 { vec_x : F; vec_y : F; vec_z : F }.

Definition vadd (a b : vec3) : vec3 :=
  mkvec3 (fadd (vec_x a) (vec_x b)) (fadd (vec_y a) (vec_y b)) (fadd (vec_z a) (vec_z b)).
Definition vsub (a b : vec3) : vec3 :=
  mkvec3 (fsub (vec_x a) (vec_x b)) (fsub (vec_y a) (vec_y b)) (fsub (vec_z a) (vec_z b)).
Definition vscale (a : vec3) (k : F) : vec3 :=
  mkvec3 (fmul (vec_x a) k) (fmul (vec_y a) k) (fmul (vec_z a) k).
Definition dot (a b : vec3) : F :=
  fadd (fadd (fmul (vec_x a) (vec_x b)) (fmul (vec_y a) (vec_y b))) (fmul (vec_z a) (vec_z b)).
Definition length3 (v : vec3) : F := fsqrt (dot v v).
Definition distance (p0 p1 : vec3) : F := length3 (vsub p1 p0).
Definition normalize (v : vec3) : vec3 :=
  vscale v (fdiv (of_int 1) (fsqrt (dot v v))).
Definition cross (a b : vec3) : vec3 :=
  mkvec3 (fsub (fmul (vec_y a) (vec_z b)) (fmul (vec_y b) (vec_z a)))
         (fsub (fmul (vec_z a) (vec_x b)) (fmul (vec_z b) (vec_x a)))
         (fsub (fmul (vec_x a) (vec_y b)) (fmul (vec_x b) (vec_y a))).

(** *** Mesh *)

(** [vertices] is the flat attribute array, 14 floats per vertex
    (position 3, normal 3, uv 2, tangent 3, bitangent 3).  The buffer
    handles [VAO], [VBO] and [EBO] are names handed out by OpenGL in
    [setup] and are not modelled. *)
Record Mesh : Type := mkMesh {
  vertices : list F;
  indices : list Z;
  texture : Z;
  normalMap : Z
}.

Definition Mesh_new : Mesh := mkMesh [] [] 0 0.

Definition stride : Z := 14.

Definition vertex_count (m : Mesh) : Z := Z.of_nat (length (vertices m)) / stride.
Definition index_count (m : Mesh) : Z := Z.of_nat (length (indices m)).

(** [mesh.vertices.insert(mesh.vertices.end(), {...})] *)
Definition insert_end (m : Mesh) (fs : list F) : Mesh :=
  mkMesh (vertices m ++ fs) (indices m) (texture m) (normalMap m).

(** [mesh.indices.push_back(i)] with the [int] argument converted to
    [unsigned int]. *)
Definition push_back (m : Mesh) (i : Z) : Mesh :=
  mkMesh (vertices m) (indices m ++ [to_unsigned i]) (texture m) (normalMap m).

Definition set_texture (m : Mesh) (tex : Z) : Mesh :=
  mkMesh (vertices m) (indices m) tex (normalMap m).

(** Size of a mesh: floats in the attribute array, and indices. *)
Definition sized (nfloats nindices : Z) (m : Mesh) : Prop :=
  Z.of_nat (length (vertices m)) = nfloats /\
  Z.of_nat (length (indices m)) = nindices.

Definition indices_below (bound : Z) (m : Mesh) : Prop :=
  Forall (fun k => 0 <= k < bound) (indices m).

(** A mesh of [n] vertices and [k] indices, all indices addressing a
    vertex. *)
Definition well_indexed (n k : Z) (m : Mesh) : Prop :=
  sized (stride * n) k m /\ indices_below n m.

Section Generators.

(** [cos] and [sin] of the math library. *)
Variables cosf sinf : F -> F.

Let f0 : F := of_int 0.
Let f1 : F := of_int 1.
Let fm1 : F := fneg (of_int 1).
Let half : F := flit 1 2.
Let pi : F := flit 314159 100000.

Definition generateCone (radius height : F) (segments : Z) (tex : Z) : outcome Mesh :=
  let mesh := Mesh_new in
  let angleStep := fdiv (fmul (of_int 2) pi) (of_int segments) in
  (* base centre *)
  let mesh := insert_end mesh
    [f0; f0; f0; f0; fm1; f0; half; half; f1; f0; f0; f0; f0; f1] in
  (* apex *)
  let mesh := insert_end mesh
    [f0; height; f0; f0; f1; f0; half; half; f1; f0; f0; f0; f0; f1] in
  let mesh := for_range segments (fun i mesh =>
    let angle := fmul (of_int i) angleStep in
    let x := fmul radius (cosf angle) in
    let z := fmul radius (sinf angle) in
    let u := fmul (fadd (fdiv x radius) f1) half in
    let v := fmul (fadd (fdiv z radius) f1) half in
    (* base vertex *)
    let mesh := insert_end mesh
      [x; f0; z; f0; fm1; f0; u; v; f1; f0; f0; f0; f0; f1] in
    (* side vertex *)
    let sideNormal := normalize (mkvec3 x (fdiv radius height) z) in
    insert_end mesh
      [x; f0; z; vec_x sideNormal; vec_y sideNormal; vec_z sideNormal;
       fdiv (of_int i) (of_int segments); f0; f1; f0; f0; f0; f1; f0]) mesh in
  (* indices of the base *)
  let mesh := for_range segments (fun i mesh =>
    let mesh := push_back mesh 0 in
    let mesh := push_back mesh (int_add 2 (int_mul i 2)) in
    push_back mesh (int_add 2 (int_mul (int_rem (int_add i 1) segments) 2))) mesh in
  (* indices of the sides *)
  let mesh := for_range segments (fun i mesh =>
    let mesh := push_back mesh 1 in
    let mesh := push_back mesh
      (int_add (int_add 2 (int_mul (int_rem (int_add i 1) segments) 2)) 1) in
    push_back mesh (int_add (int_add 2 (int_mul i 2)) 1)) mesh in
  let mesh := set_texture mesh tex in
  Returned mesh.

Definition generateCylinder (radius height : F) (segments : Z) (tex : Z) : outcome Mesh :=
  let mesh := Mesh_new in
  let angleStep := fdiv (fmul (of_int 2) pi) (of_int segments) in
  (* centre points *)
  let mesh := insert_end mesh
    [f0; f0; f0; f0; fm1; f0; half; half; f1; f0; f0; f0; f0; f1] in
  let mesh := insert_end mesh
    [f0; height; f0; f0; f1; f0; half; half; f1; f0; f0; f0; f0; f1] in
  let mesh := for_range segments (fun i mesh =>
    let angle := fmul (of_int i) angleStep in
    let x := fmul radius (cosf angle) in
    let z := fmul radius (sinf angle) in
    let u := fdiv (of_int i) (of_int segments) in
    (* bottom rim *)
    let mesh := insert_end mesh
      [x; f0; z; f0; fm1; f0; u; f0; f1; f0; f0; f0; f0; f1] in
    (* top rim *)
    let mesh := insert_end mesh
      [x; height; z; f0; f1; f0; u; f1; f1; f0; f0; f0; f0; f1] in
    (* side bottom *)
    let n := normalize (mkvec3 x f0 z) in
    let mesh := insert_end mesh
      [x; f0; z; vec_x n; vec_y n; vec_z n; u; f1; fneg z; f0; x; f0; f1; f0] in
    (* side top *)
    insert_end mesh
      [x; height; z; vec_x n; vec_y n; vec_z n; u; f0; fneg z; f0; x; f0; f1; f0]) mesh in
  let baseOffset := 2 in
  let mesh := for_range segments (fun i mesh =>
    let next := int_rem (int_add i 1) segments in
    (* bottom cap *)
    let mesh := push_back mesh 0 in
    let mesh := push_back mesh (int_add baseOffset (int_mul i 4)) in
    let mesh := push_back mesh (int_add baseOffset (int_mul next 4)) in
    (* top cap *)
    let mesh := push_back mesh 1 in
    let mesh := push_back mesh (int_add (int_add baseOffset (int_mul next 4)) 1) in
    let mesh := push_back mesh (int_add (int_add baseOffset (int_mul i 4)) 1) in
    (* sides *)
    let bl := int_add (int_add baseOffset (int_mul i 4)) 2 in
    let tl := int_add (int_add baseOffset (int_mul i 4)) 3 in
    let br := int_add (int_add baseOffset (int_mul next 4)) 2 in
    let tr := int_add (int_add baseOffset (int_mul next 4)) 3 in
    let mesh := push_back mesh bl in
    let mesh := push_back mesh tr in
    let mesh := push_back mesh tl in
    let mesh := push_back mesh bl in
    let mesh := push_back mesh br in
    push_back mesh tr) mesh in
  let mesh := set_texture mesh tex in
  Returned mesh.

End Generators.

(** [for (int i = 0; i <= n; ++i) body]; for [n < INT_MAX], where the
    counter does not overflow. *)
Definition for_range_incl {A : Type} (n : Z) (body : Z -> A -> A) (a : A) : A :=
  for_range (n + 1) body a.

Section MoreGenerators.

(** [cos] and [sin] of the math library. *)
Variables cosf sinf : F -> F.

Definition generateCube (size : F) (tex : Z) : outcome Mesh :=
  let mesh := Mesh_new in
  let half := fdiv size (of_int 2) in
  let h := half in
  let nh := fneg half in
  let c0 := of_int 0 in
  let c1 := of_int 1 in
  let cm1 := of_int (-1) in
  let mesh := mkMesh
    [
     nh; nh; h; c0; c0; c1; c0; c0; c1; c0; c0; c0; c1; c0;
     h; nh; h; c0; c0; c1; c1; c0; c1; c0; c0; c0; c1; c0;
     h; h; h; c0; c0; c1; c1; c1; c1; c0; c0; c0; c1; c0;
     nh; h; h; c0; c0; c1; c0; c1; c1; c0; c0; c0; c1; c0;
     nh; nh; nh; c0; c0; cm1; c1; c0; cm1; c0; c0; c0; c1; c0;
     h; nh; nh; c0; c0; cm1; c0; c0; cm1; c0; c0; c0; c1; c0;
     h; h; nh; c0; c0; cm1; c0; c1; cm1; c0; c0; c0; c1; c0;
     nh; h; nh; c0; c0; cm1; c1; c1; cm1; c0; c0; c0; c1; c0;
     nh; h; nh; c0; c1; c0; c0; c1; c1; c0; c0; c0; c0; cm1;
     h; h; nh; c0; c1; c0; c1; c1; c1; c0; c0; c0; c0; cm1;
     h; h; h; c0; c1; c0; c1; c0; c1; c0; c0; c0; c0; cm1;
     nh; h; h; c0; c1; c0; c0; c0; c1; c0; c0; c0; c0; cm1;
     nh; nh; nh; c0; cm1; c0; c0; c0; c1; c0; c0; c0; c0; c1;
     h; nh; nh; c0; cm1; c0; c1; c0; c1; c0; c0; c0; c0; c1;
     h; nh; h; c0; cm1; c0; c1; c1; c1; c0; c0; c0; c0; c1;
     nh; nh; h; c0; cm1; c0; c0; c1; c1; c0; c0; c0; c0; c1;
     h; nh; nh; c1; c0; c0; c1; c0; c0; c0; cm1; c0; c1; c0;
     h; h; nh; c1; c0; c0; c1; c1; c0; c0; cm1; c0; c1; c0;
     h; h; h; c1; c0; c0; c0; c1; c0; c0; cm1; c0; c1; c0;
     h; nh; h; c1; c0; c0; c0; c0; c0; c0; cm1; c0; c1; c0;
     nh; nh; nh; cm1; c0; c0; c0; c0; c0; c0; c1; c0; c1; c0;
     nh; h; nh; cm1; c0; c0; c0; c1; c0; c0; c1; c0; c1; c0;
     nh; h; h; cm1; c0; c0; c1; c1; c0; c0; c1; c0; c1; c0;
     nh; nh; h; cm1; c0; c0; c1; c0; c0; c0; c1; c0; c1; c0
    ] (indices mesh) (texture mesh) (normalMap mesh) in
  let mesh := mkMesh (vertices mesh)
    [0; 1; 2; 2; 3; 0; 4; 5; 6; 6; 7; 4; 8; 9; 10; 10; 11; 8; 12; 13; 14; 14; 15; 12; 16; 17; 18; 18; 19; 16; 20; 21; 22; 22; 23; 20]
    (texture mesh) (normalMap mesh) in
  let mesh := set_texture mesh tex in
  Returned mesh.

Definition set_normalMap (m : Mesh) (normal : Z) : Mesh :=
  mkMesh (vertices m) (indices m) (texture m) normal.

Definition generateEllipsoid (rx ry rz : F) (slices stacks : Z) (tex normal : Z)
    : outcome Mesh :=
  let pi := flit 314159 100000 in
  let mesh := Mesh_new in
  let mesh := for_range_incl stacks (fun i mesh =>
    let phi := fdiv (fmul pi (of_int i)) (of_int stacks) in
    for_range_incl slices (fun j mesh =>
      let theta := fdiv (fmul (fmul (of_int 2) pi) (of_int j)) (of_int slices) in
      let x := fmul (fmul rx (cosf theta)) (sinf phi) in
      let y := fmul ry (cosf phi) in
      let z := fmul (fmul rz (sinf theta)) (sinf phi) in
      let normalVec := normalize (mkvec3 (fdiv x rx) (fdiv y ry) (fdiv z rz)) in
      let mesh := insert_end mesh
        [x; y; z; vec_x normalVec; vec_y normalVec; vec_z normalVec;
         fdiv (of_int j) (of_int slices); fdiv (of_int i) (of_int stacks)] in
      let tangent := normalize (mkvec3 (fneg (sinf theta)) (of_int 0) (cosf theta)) in
      let bitangent := cross normalVec tangent in
      insert_end mesh
        [vec_x tangent; vec_y tangent; vec_z tangent;
         vec_x bitangent; vec_y bitangent; vec_z bitangent]) mesh) mesh in
  let mesh := for_range stacks (fun i mesh =>
    for_range slices (fun j mesh =>
      let first := int_add (int_mul i (int_add slices 1)) j in
      let second := int_add (int_add first slices) 1 in
      let mesh := push_back mesh first in
      let mesh := push_back mesh second in
      let mesh := push_back mesh (int_add first 1) in
      let mesh := push_back mesh second in
      let mesh := push_back mesh (int_add second 1) in
      push_back mesh (int_add first 1)) mesh) mesh in
  let mesh := set_texture mesh tex in
  let mesh := set_normalMap mesh normal in
  Returned mesh.

(** The height texture handle [heightTex] is taken and not used. *)
Definition generateTerrain (width depth : Z) (tex heightTex : Z) : outcome Mesh :=
  let mesh := Mesh_new in
  let mesh := for_range_incl depth (fun z mesh =>
    for_range_incl width (fun x mesh =>
      let u := fdiv (of_int x) (of_int width) in
      let v := fdiv (of_int z) (of_int depth) in
      insert_end mesh
        [fsub (of_int x) (fdiv (of_int width) (of_int 2)); of_int 0;
         fsub (of_int z) (fdiv (of_int depth) (of_int 2));
         of_int 0; of_int 1; of_int 0;
         fmul u (of_int 10); fmul v (of_int 10);
         of_int 1; of_int 0; of_int 0; of_int 0; of_int 0; of_int 1]) mesh) mesh in
  let mesh := for_range depth (fun z mesh =>
    for_range width (fun x mesh =>
      let topLeft := int_add (int_mul z (int_add width 1)) x in
      let topRight := int_add topLeft 1 in
      let bottomLeft := int_add (int_mul (int_add z 1) (int_add width 1)) x in
      let bottomRight := int_add bottomLeft 1 in
      let mesh := push_back mesh topLeft in
      let mesh := push_back mesh bottomLeft in
      let mesh := push_back mesh topRight in
      let mesh := push_back mesh topRight in
      let mesh := push_back mesh bottomLeft in
      push_back mesh bottomRight) mesh) mesh in
  let mesh := set_texture mesh tex in
  Returned mesh.

End MoreGenerators.

(** *** Reading a mesh *)

(** Attribute [off] (0 to 13) of vertex [k]. *)
Definition attribute (m : Mesh) (k : Z) (off : Z) : option F :=
  nth_error (vertices m) (Z.to_nat (stride * k + off)).

(** Three consecutive attributes starting at [off]: position at 0,
    normal at 3, tangent at 8, bitangent at 11. *)
Definition attribute3 (m : Mesh) (k : Z) (off : Z) : option (F * F * F) :=
  match attribute m k off, attribute m k (off + 1), attribute m k (off + 2) with
  | Some a, Some b, Some c => Some (a, b, c)
  | _, _, _ => None
  end.

(** The index list cut into triangles, as [glDrawElements(GL_TRIANGLES)]
    reads it. *)
Fixpoint triangles (l : list Z) : list (Z * Z * Z) :=
  match l with
  | a :: b :: c :: rest => (a, b, c) :: triangles rest
  | _ => []
  end.

(** Bit-for-bit agreement of two integers as [unsigned int]. *)
Definition same_bits (a b : Z) : Prop := to_unsigned a = to_unsigned b.

(** *** Height field *)

(** [(unsigned int)f]: the integer part, reduced modulo 2^32 where it
    does not fit (a case C++ leaves undefined, and one the clamps below
    make irrelevant). *)
Definition to_uint (f : F) : Z := to_unsigned (ftrunc f).

Definition getTerrainHeight (worldX worldZ : F) (heightMap : Image)
    (terrainScale terrainHeightScale : F) : result F :=
  let mapSize := fmul (of_int 100) terrainScale in
  let halfSize := fdiv mapSize (of_int 2) in
  if flt worldX (fneg halfSize) || fgt worldX halfSize
     || flt worldZ (fneg halfSize) || fgt worldZ halfSize
  then Ok (of_int 0)
  else
    let u := fdiv (fadd worldX halfSize) mapSize in
    let v := fdiv (fadd worldZ halfSize) mapSize in
    let x := to_uint (fmul u (of_int (size_x heightMap))) in
    let y := to_uint (fmul v (of_int (size_y heightMap))) in
    let x := if x >=? size_x heightMap then uint_sub (size_x heightMap) 1 else x in
    let y := if y >=? size_y heightMap then uint_sub (size_y heightMap) 1 else y in
    do c <- getPixel heightMap x y;
    Ok (fmul (fdiv (of_int (red c)) (of_int 255)) terrainHeightScale).

(** *** Entities *)

Record Parcel : Type := mkParcel {
  p_position : vec3;
  p_velocity : vec3;
  p_mesh : Mesh;
  p_radius : F;
  p_active : bool
}.

Record Target : Type := mkTarget {
  t_position : vec3;
  t_body : Mesh;
  t_roof : Mesh;
  t_radius : F;
  t_active : bool
}.

Definition gravity : vec3 := mkvec3 (of_int 0) (fneg (flit 98 10)) (of_int 0).

(** Default member initialisers of [Parcel] and [Target]; the position
    is assigned by the caller. *)
Definition Parcel_new (position : vec3) (mesh : Mesh) : Parcel :=
  mkParcel position gravity mesh (flit 1 2) true.
Definition Target_new (position : vec3) (body roof : Mesh) : Target :=
  mkTarget position body roof (flit 5 2) true.

Definition p_set_position (p : Parcel) (pos : vec3) : Parcel :=
  mkParcel pos (p_velocity p) (p_mesh p) (p_radius p) (p_active p).
Definition p_set_active (p : Parcel) (b : bool) : Parcel :=
  mkParcel (p_position p) (p_velocity p) (p_mesh p) (p_radius p) b.
Definition t_set_active (t : Target) (b : bool) : Target :=
  mkTarget (t_position t) (t_body t) (t_roof t) (t_radius t) b.

(** *** The update block of the main loop *)

Definition terrainScale : F := of_int 2.
Definition terrainHeightScale : F := of_int 10.

(** [distance(p.position, t.position) < p.radius + t.radius] *)
Definition in_range (p : Parcel) (t : Target) : bool :=
  flt (distance (p_position p) (t_position t)) (fadd (p_radius p) (t_radius t)).

(** [for (auto& t : targets)]: inactive targets are skipped, the first
    active target within range is deactivated together with the parcel,
    the score is incremented and the loop is left. *)
Fixpoint testTargets (p : Parcel) (ts : list Target) (score : Z)
    : Parcel * list Target * Z :=
  match ts with
  | [] => (p, [], score)
  | t :: rest =>
      if negb (t_active t) then
        let '(p', rest', score') := testTargets p rest score in
        (p', t :: rest', score')
      else if in_range p t then
        (p_set_active p false, t_set_active t false :: rest, int_incr score)
      else
        let '(p', rest', score') := testTargets p rest score in
        (p', t :: rest', score')
  end.

(** [p.position += p.velocity * dt] *)
Definition integrate (dt : F) (p : Parcel) : Parcel :=
  p_set_position p (vadd (p_position p) (vscale (p_velocity p) dt)).

(** The body of [for (auto& p : parcels)]. *)
Definition updateParcel (dt : F) (heightMap : Image) (p : Parcel)
    (ts : list Target) (score : Z) : result (Parcel * list Target * Z) :=
  if negb (p_active p) then Ok (p, ts, score)
  else
    let p := integrate dt p in
    do terrainH <- getTerrainHeight (vec_x (p_position p)) (vec_z (p_position p))
                     heightMap terrainScale terrainHeightScale;
    if fle (vec_y (p_position p)) terrainH then Ok (p_set_active p false, ts, score)
    else Ok (testTargets p ts score).

Fixpoint updateParcels (dt : F) (heightMap : Image) (ps : list Parcel)
    (ts : list Target) (score : Z) : result (list Parcel * list Target * Z) :=
  match ps with
  | [] => Ok ([], ts, score)
  | p :: rest =>
      do (p', ts', score') <- updateParcel dt heightMap p ts score;
      do (rest', ts'', score'') <- updateParcels dt heightMap rest ts' score';
      Ok (p' :: rest', ts'', score'')
  end.

(** Successive frames in which no parcel is spawned: the update block
    run once per elapsed time of [dts]. *)
Fixpoint simulate (heightMap : Image) (dts : list F) (ps : list Parcel)
    (ts : list Target) (score : Z) : result (list Parcel * list Target * Z) :=
  match dts with
  | [] => Ok (ps, ts, score)
  | dt :: rest =>
      do (ps', ts', score') <- updateParcels dt heightMap ps ts score;
      simulate heightMap rest ps' ts' score'
  end.

(** *** main: scene set-up and frame loop *)

Inductive Key : Type :=
| KeyC | KeyP | KeyW | KeyS | KeyA | KeyD | KeySpace | KeyLControl | KeyOther.

Inductive Event : Type :=
| Closed
| KeyPressed (code : Key)
| OtherEvent.

(** What one iteration of the frame loop reads from outside: the queued
    events, the restarted clock and the keyboard state. *)
Record FrameInput : Type := mkFrameInput {
  events : list Event;
  elapsed : F;
  isKeyPressed : Key -> bool
}.

Record World : Type := mkWorld {
  isOpen : bool;
  airshipPos : vec3;
  treePos : vec3;
  targets : list Target;
  parcels : list Parcel;
  aimMode : bool;
  score : Z
}.

Section Main.

Variable heightMapImage : Image.
(** Meshes built before the scene is set up. *)
Variables parcelMesh houseBody houseRoof : Mesh.

(** The body of the target set-up loop. *)
Definition addTarget (i : Z) (targets : list Target) : result (list Target) :=
  let tx := fsub (fmul (of_int i) (of_int 15)) (of_int 30) in
  let tz := fsub (fmul (of_int i) (of_int 10)) (of_int 20) in
  do ty <- getTerrainHeight tx tz heightMapImage terrainScale terrainHeightScale;
  Ok (targets ++ [Target_new (mkvec3 tx (fadd ty (of_int 2)) tz) houseBody houseRoof]).

Definition setupTargets : result (list Target) :=
  fold_left (fun acc i => do targets <- acc; addTarget (Z.of_nat i) targets)
            (seq 0 5) (Ok []).

Definition setupScene : result World :=
  let airshipPos := mkvec3 (of_int 0) (of_int 30) (of_int 0) in
  let treePos := mkvec3 (of_int 20) (of_int 0) (of_int 20) in
  do treeY <- getTerrainHeight (vec_x treePos) (vec_z treePos) heightMapImage
                terrainScale terrainHeightScale;
  let treePos := mkvec3 (vec_x treePos) treeY (vec_z treePos) in
  do targets <- setupTargets;
  Ok (mkWorld true airshipPos treePos targets [] false 0).

Definition handleEvent (w : World) (e : Event) : World :=
  match e with
  | Closed =>
      mkWorld false (airshipPos w) (treePos w) (targets w) (parcels w) (aimMode w) (score w)
  | KeyPressed KeyC =>
      mkWorld (isOpen w) (airshipPos w) (treePos w) (targets w) (parcels w)
              (negb (aimMode w)) (score w)
  | KeyPressed KeyP =>
      let p := Parcel_new (vadd (airshipPos w) (mkvec3 (of_int 0) (fneg (of_int 4)) (of_int 0)))
                          parcelMesh in
      mkWorld (isOpen w) (airshipPos w) (treePos w) (targets w) (parcels w ++ [p])
              (aimMode w) (score w)
  | _ => w
  end.

Definition controls (inp : FrameInput) (pos : vec3) : vec3 :=
  let dt := elapsed inp in
  let speed := of_int 15 in
  let forward := mkvec3 (of_int 0) (of_int 0) (fneg (of_int 1)) in
  let right := normalize (cross forward (mkvec3 (of_int 0) (of_int 1) (of_int 0))) in
  let pos := if isKeyPressed inp KeyW then vadd pos (vscale (vscale forward speed) dt) else pos in
  let pos := if isKeyPressed inp KeyS then vsub pos (vscale (vscale forward speed) dt) else pos in
  let pos := if isKeyPressed inp KeyD then vadd pos (vscale (vscale right speed) dt) else pos in
  let pos := if isKeyPressed inp KeyA then vsub pos (vscale (vscale right speed) dt) else pos in
  let pos := if isKeyPressed inp KeySpace
             then mkvec3 (vec_x pos) (fadd (vec_y pos) (fmul speed dt)) (vec_z pos) else pos in
  if isKeyPressed inp KeyLControl
  then mkvec3 (vec_x pos) (fsub (vec_y pos) (fmul speed dt)) (vec_z pos) else pos.

(** One iteration of [while (window.isOpen())]; camera and drawing
    read the world and change nothing in it. *)
Definition frame (inp : FrameInput) (w : World) : result World :=
  let w := fold_left handleEvent (events inp) w in
  let pos := controls inp (airshipPos w) in
  do (ps, ts, sc) <- updateParcels (elapsed inp) heightMapImage (parcels w) (targets w) (score w);
  Ok (mkWorld (isOpen w) pos (treePos w) ts ps (aimMode w) sc).

Fixpoint mainLoop (inputs : list FrameInput) (w : World) : result World :=
  match inputs with
  | [] => Ok w
  | inp :: rest =>
      if isOpen w then (do w' <- frame inp w; mainLoop rest w') else Ok w
  end.

Definition main (inputs : list FrameInput) : result World :=
  do w <- setupScene; mainLoop inputs w.

End Main.

(** *** The update block on a loaded image

    On a loaded image the terrain query always yields a value, so the
    update block is a total function; [updateParcels_loaded] below
    states that it is the same function. *)

Definition ground (heightMap : Image) (p : Parcel) : F :=
  match getTerrainHeight (vec_x (p_position p)) (vec_z (p_position p))
          heightMap terrainScale terrainHeightScale with
  | Ok h => h
  | OutOfBounds _ _ => of_int 0
  end.

(** [p.position.y <= terrainH] *)
Definition landed (heightMap : Image) (p : Parcel) : bool :=
  fle (vec_y (p_position p)) (ground heightMap p).

Definition stepParcel (dt : F) (heightMap : Image) (p : Parcel)
    (ts : list Target) (score : Z) : Parcel * list Target * Z :=
  if negb (p_active p) then (p, ts, score)
  else
    let q := integrate dt p in
    if landed heightMap q then (p_set_active q false, ts, score)
    else testTargets q ts score.

Fixpoint stepParcels (dt : F) (heightMap : Image) (ps : list Parcel)
    (ts : list Target) (score : Z) : list Parcel * list Target * Z :=
  match ps with
  | [] => ([], ts, score)
  | p :: rest =>
      let '(p', ts', score') := stepParcel dt heightMap p ts score in
      let '(rest', ts'', score'') := stepParcels dt heightMap rest ts' score' in
      (p' :: rest', ts'', score'')
  end.

Fixpoint steps (heightMap : Image) (dts : list F) (ps : list Parcel)
    (ts : list Target) (score : Z) : list Parcel * list Target * Z :=
  match dts with
  | [] => (ps, ts, score)
  | dt :: rest =>
      let '(ps', ts', score') := stepParcels dt heightMap ps ts score in
      steps heightMap rest ps' ts' score'
  end.

(** *** Vocabulary of the properties *)

Definition destroyed (t : Target) : bool := negb (t_active t).

(** Number of targets whose [active] flag is false. *)
Definition count_inactive (ts : list Target) : nat := length (filter destroyed ts).

(** The targets [ts] with those satisfying [P] deactivated. *)
Definition strike (P : Target -> bool) (ts : list Target) : list Target :=
  map (fun t => if P t then t_set_active t false else t) ts.

(** At most one position of [ts] satisfies [P]. *)
Definition unique (P : Target -> bool) (ts : list Target) : Prop :=
  (length (filter P ts) <= 1)%nat.

(** In the tick of length [dt] the active parcel [p] stays above ground
    and is within hit range of [t]. *)
Definition contact (heightMap : Image) (dt : F) (p : Parcel) (t : Target) : bool :=
  p_active p && negb (landed heightMap (integrate dt p)) && in_range (integrate dt p) t.

(** Falling freely through the ticks [dts], the active parcel [p] comes
    within hit range of [t] in some tick before the tick in which it
    lands. *)
Fixpoint reaches (heightMap : Image) (dts : list F) (p : Parcel) (t : Target) : bool :=
  match dts with
  | [] => false
  | dt :: rest =>
      let q := integrate dt p in
      p_active p && negb (landed heightMap q)
      && (in_range q t || reaches heightMap rest q t)
  end.



(** No parcel of [ps] can reach two different targets of [ts]. *)
Definition one_target_each (heightMap : Image) (dts : list F) (ps : list Parcel)
    (ts : list Target) : bool :=
  forallb (fun p => (length (filter (reaches heightMap dts p) ts) <=? 1)%nat) ps.

(** What the target loop does for parcel [p]: either no active
    target is within range and nothing changes, or the first active
    target within range is deactivated together with the parcel and the
    score is incremented. *)
Inductive hit_result (p : Parcel) (ts : list Target) (sc : Z)
    : Parcel * list Target * Z -> Prop :=
| no_hit :
    (forall t, In t ts -> t_active t = true -> in_range p t = false) ->
    hit_result p ts sc (p, ts, sc)
| first_hit (before : list Target) (t : Target) (after : list Target) :
    ts = before ++ t :: after ->
    t_active t = true ->
    in_range p t = true ->
    (forall t', In t' before -> t_active t' = true -> in_range p t' = false) ->
    hit_result p ts sc
      (p_set_active p false, before ++ t_set_active t false :: after, int_incr sc).

(** From [(ts, sc)] to [(ts', sc')] the score was incremented once for
    each target deactivated, and no target was added, removed or
    reactivated. *)
Definition scored (ts : list Target) (sc : Z) (ts' : list Target) (sc' : Z) : Prop :=
  (count_inactive ts <= count_inactive ts')%nat /\
  sc' = Nat.iter (count_inactive ts' - count_inactive ts) int_incr sc /\
  length ts' = length ts.

(** The score counts the destroyed targets of a five-target scene. *)
Definition score_invariant (w : World) : Prop :=
  score w = Z.of_nat (count_inactive (targets w)) /\ length (targets w) = 5%nat.

(** Events that drop a parcel, and events that close the window. *)
Definition is_spawn (e : Event) : bool :=
  match e with KeyPressed KeyP => true | _ => false end.
Definition is_close (e : Event) : bool :=
  match e with Closed => true | _ => false end.

(** Number of parcels still falling. *)
Definition count_active (ps : list Parcel) : nat := length (filter p_active ps).

(** What a tick may do to one target: nothing, or deactivate it if it
    was active. *)
Definition target_step (t t' : Target) : Prop :=
  t' = t \/ (t_active t = true /\ t' = t_set_active t false).

(** What a tick of length [dt] may do to one parcel: nothing if it is
    inactive; otherwise move it by [velocity * dt] and either keep it
    active or deactivate it there. *)
Definition parcel_step (dt : F) (p p' : Parcel) : Prop :=
  (p_active p = false /\ p' = p) \/
  (p_active p = true /\
   (p' = integrate dt p \/ p' = p_set_active (integrate dt p) false)).

(** A parcel as the drop command creates it, and a target as the scene
    set-up creates it. *)
Definition dropped (parcelMesh : Mesh) (p : Parcel) : Prop :=
  p_velocity p = gravity /\ p_radius p = flit 1 2 /\ p_mesh p = parcelMesh.
Definition house (houseBody houseRoof : Mesh) (t : Target) : Prop :=
  t_radius t = flit 5 2 /\ t_body t = houseBody /\ t_roof t = houseRoof.

(** The parcel a drop command creates while the airship is at [pos]. *)
Definition spawned (parcelMesh : Mesh) (pos : vec3) : Parcel :=
  Parcel_new (vadd pos (mkvec3 (of_int 0) (fneg (of_int 4)) (of_int 0))) parcelMesh.

(** What the frame loop keeps of the scene [w0] it started from: the
    parcels are as dropped, the targets are the houses of the set-up at
    their places, the tree stays. *)
Definition scene_kept (parcelMesh houseBody houseRoof : Mesh) (w0 w : World) : Prop :=
  Forall (dropped parcelMesh) (parcels w) /\
  Forall (house houseBody houseRoof) (targets w) /\
  map t_position (targets w) = map t_position (targets w0) /\
  treePos w = treePos w0.

(** The integers 0, 1, ..., n-1. *)
Definition range (n : Z) : list Z := map Z.of_nat (seq 0 (Z.to_nat n)).

(** The triangles of segment [i] of a cone: in the base fan around
    vertex 0 and in the side fan around the apex, vertex 1.  Rim vertex
    [i] is vertex [2 + 2 i], its side twin is the next vertex, and the
    neighbour of the last segment is the first. *)
Definition cone_base_triangle (segments i : Z) : list Z :=
  [0; 2 + 2 * i; 2 + 2 * ((i + 1) mod segments)].
Definition cone_side_triangle (segments i : Z) : list Z :=
  [1; 2 + 2 * ((i + 1) mod segments) + 1; 2 + 2 * i + 1].

(** The four triangles of segment [i] of a cylinder: bottom cap, top
    cap, and the two halves of the side quad.  Segment [i] owns the
    vertices [2 + 4 i] (bottom rim), [+1] (top rim), [+2] (side bottom)
    and [+3] (side top). *)
Definition cylinder_triangles (segments i : Z) : list Z :=
  let next := (i + 1) mod segments in
  [0; 2 + 4 * i; 2 + 4 * next;
   1; 2 + 4 * next + 1; 2 + 4 * i + 1;
   2 + 4 * i + 2; 2 + 4 * next + 3; 2 + 4 * i + 3;
   2 + 4 * i + 2; 2 + 4 * next + 2; 2 + 4 * next + 3].

Section Layouts.

Variables cosf sinf : F -> F.

(** The point of the rim at segment [i]: [(x, z)] as both generators
    compute it. *)
Definition rim_point (radius : F) (segments i : Z) : F * F :=
  let angleStep := fdiv (fmul (of_int 2) (flit 314159 100000)) (of_int segments) in
  let angle := fmul (of_int i) angleStep in
  (fmul radius (cosf angle), fmul radius (sinf angle)).

(** The two centre vertices the cylinder starts with: bottom, then top. *)
Definition cylinder_centres (height : F) : list F :=
  let f0 := of_int 0 in
  let f1 := of_int 1 in
  let fm1 := fneg (of_int 1) in
  let half := flit 1 2 in
  [f0; f0; f0; f0; fm1; f0; half; half; f1; f0; f0; f0; f0; f1]
  ++ [f0; height; f0; f0; f1; f0; half; half; f1; f0; f0; f0; f0; f1].

(** The four vertices that the cylinder's vertex loop appends for
    segment [i]. *)
Definition cylinder_block (radius height : F) (segments i : Z) : list F :=
  let f0 := of_int 0 in
  let f1 := of_int 1 in
  let fm1 := fneg (of_int 1) in
  let '(x, z) := rim_point radius segments i in
  let u := fdiv (of_int i) (of_int segments) in
  let n := normalize (mkvec3 x f0 z) in
  [x; f0; z; f0; fm1; f0; u; f0; f1; f0; f0; f0; f0; f1]
  ++ [x; height; z; f0; f1; f0; u; f1; f1; f0; f0; f0; f0; f1]
  ++ [x; f0; z; vec_x n; vec_y n; vec_z n; u; f1; fneg z; f0; x; f0; f1; f0]
  ++ [x; height; z; vec_x n; vec_y n; vec_z n; u; f0; fneg z; f0; x; f0; f1; f0].

(** The two centre vertices the cone starts with: base centre, then
    apex. *)
Definition cone_centres (height : F) : list F :=
  let f0 := of_int 0 in
  let f1 := of_int 1 in
  let fm1 := fneg (of_int 1) in
  let half := flit 1 2 in
  [f0; f0; f0; f0; fm1; f0; half; half; f1; f0; f0; f0; f0; f1]
  ++ [f0; height; f0; f0; f1; f0; half; half; f1; f0; f0; f0; f0; f1].

(** The two vertices that the cone's vertex loop appends for segment
    [i]: the base-rim vertex and the side vertex. *)
Definition cone_block (radius height : F) (segments i : Z) : list F :=
  let f0 := of_int 0 in
  let f1 := of_int 1 in
  let fm1 := fneg (of_int 1) in
  let half := flit 1 2 in
  let '(x, z) := rim_point radius segments i in
  let u := fmul (fadd (fdiv x radius) f1) half in
  let v := fmul (fadd (fdiv z radius) f1) half in
  let sideNormal := normalize (mkvec3 x (fdiv radius height) z) in
  [x; f0; z; f0; fm1; f0; u; v; f1; f0; f0; f0; f0; f1]
  ++ [x; f0; z; vec_x sideNormal; vec_y sideNormal; vec_z sideNormal;
      fdiv (of_int i) (of_int segments); f0; f1; f0; f0; f0; f1; f0].

End Layouts.

(** The vertex of the terrain grid in column [x] of row [z]. *)
Definition terrain_vertex (width depth z x : Z) : list F :=
  let u := fdiv (of_int x) (of_int width) in
  let v := fdiv (of_int z) (of_int depth) in
  [fsub (of_int x) (fdiv (of_int width) (of_int 2)); of_int 0;
   fsub (of_int z) (fdiv (of_int depth) (of_int 2));
   of_int 0; of_int 1; of_int 0;
   fmul u (of_int 10); fmul v (of_int 10);
   of_int 1; of_int 0; of_int 0; of_int 0; of_int 0; of_int 1].

(** Every vertex of [m], taken as its block of 14 floats, satisfies [Q]. *)
Definition every_vertex (Q : list F -> Prop) (m : Mesh) : Prop :=
  exists blocks, vertices m = concat blocks /\
                 Forall (fun b => length b = 14%nat /\ Q b) blocks.

(** A vertex of a flat, upward-facing grid: height 0, normal +Y,
    tangent +X, bitangent +Z. *)
Definition flat_vertex (b : list F) : Prop :=
  nth_error b 1 = Some (of_int 0) /\
  firstn 3 (skipn 3 b) = [of_int 0; of_int 1; of_int 0] /\
  skipn 8 b = [of_int 1; of_int 0; of_int 0; of_int 0; of_int 0; of_int 1].

(** *** Sentences of the specification that the code does not satisfy,
    stated as they are written *)

(** "the relative order in which parcels are ticked must not affect
    final score" *)
Definition parcel_order_irrelevant : Prop :=
  forall heightMap dts ps ps' ts sc psf tsf scf psf' tsf' scf',
    loaded heightMap ->
    Permutation ps ps' ->
    simulate heightMap dts ps ts sc = Ok (psf, tsf, scf) ->
    simulate heightMap dts ps' ts sc = Ok (psf', tsf', scf') ->
    Forall (fun p => p_active p = false) psf ->
    Forall (fun p => p_active p = false) psf' ->
    scf = scf'.

(** "cylinder: (2 + 4 segments) vertices / 8 segments indices" *)
Definition cylinder_counts_as_specified : Prop :=
  forall cosf sinf radius height segments tex,
    3 <= segments <= INT_MAX ->
    exists m, generateCylinder cosf sinf radius height segments tex = Returned m /\
      vertex_count m = 2 + 4 * segments /\
      index_count m = 8 * segments /\
      Forall (fun i => i < vertex_count m) (indices m).

(** "returns exactly 0 for any coordinate at or beyond the field's
    computed half-extent boundary" *)
Definition zero_at_or_beyond_boundary : Prop :=
  forall worldX worldZ heightMap tScale hScale,
    loaded heightMap ->
    let halfSize := fdiv (fmul (of_int 100) tScale) (of_int 2) in
    fle halfSize worldX || fle worldX (fneg halfSize)
    || fle halfSize worldZ || fle worldZ (fneg halfSize) = true ->
    getTerrainHeight worldX worldZ heightMap tScale hScale = Ok (of_int 0).

(** "zero segments should fail fast with a clear construction-time
    error" *)
Definition zero_segments_rejected : Prop :=
  forall cosf sinf radius height tex,
    (exists what, generateCone cosf sinf radius height 0 tex = Thrown what) /\
    (exists what, generateCylinder cosf sinf radius height 0 tex = Thrown what).

End Model.

Arguments vec3 : clear implicits.
Arguments Mesh : clear implicits.
Arguments Parcel : clear implicits.
Arguments Target : clear implicits.
Arguments FrameInput : clear implicits.
Arguments World : clear implicits.

(** ** Concrete scenes in single precision *)

Module Scenes.

Definition fl (n d : Z) : spec_float := flit n d.
Definition v3 (x y z : Z) : vec3 spec_float := mkvec3 (of_int x) (of_int y) (of_int z).

(** A choice of the two math-library functions for running the
    generators (low-order Taylor polynomials). *)
Definition cos_taylor (a : spec_float) : spec_float :=
  fadd (fsub (of_int 1) (fdiv (fmul a a) (of_int 2)))
       (fdiv (fmul (fmul a a) (fmul a a)) (of_int 24)).
Definition sin_taylor (a : spec_float) : spec_float :=
  fadd (fsub a (fdiv (fmul a (fmul a a)) (of_int 6)))
       (fdiv (fmul a (fmul (fmul a a) (fmul a a))) (of_int 120)).

Definition noMesh : Mesh spec_float := Mesh_new.

(** One-pixel height maps: sea level, and full red. *)
Definition flatMap : Image := mkImage 1 1 [mkColor 0 0 0 255].
Definition whiteMap : Image := mkImage 1 1 [mkColor 255 255 255 255].

(** A 2 x 2 map whose four pixels differ in red: 10 and 20 in the first
    row, 30 and 40 in the second. *)
Definition quadMap : Image :=
  mkImage 2 2 [mkColor 10 0 0 255; mkColor 20 0 0 255;
               mkColor 30 0 0 255; mkColor 40 0 0 255].

(** Two houses four units apart. *)
Definition houseA : Target spec_float := Target_new (v3 0 2 0) noMesh noMesh.
Definition houseB : Target spec_float := Target_new (v3 4 2 0) noMesh noMesh.

(** A parcel within range of [houseA] only, and one between the houses,
    within range of both. *)
Definition parcelLeft : Parcel spec_float := Parcel_new (v3 (-1) 4 0) noMesh.
Definition parcelMid : Parcel spec_float := Parcel_new (v3 2 4 0) noMesh.

Definition twoTicks : list spec_float := [fl 1 10; of_int 1].


(** The targets as [main] places them over [flatMap]. *)
Definition mainTargets : list (Target spec_float) :=
  match setupTargets flatMap noMesh noMesh with
  | Ok ts => ts
  | OutOfBounds _ _ => []
  end.

(** Two parcels dropped over the middle house of [main]. *)
Definition parcelHigh : Parcel spec_float := Parcel_new (v3 0 26 0) noMesh.
Definition parcelLow : Parcel spec_float := Parcel_new (v3 1 6 0) noMesh.

Definition fall : list spec_float := [fl 1 2; fl 1 2; of_int 1; of_int 1; of_int 1].

End Scenes.


(** * Properties *)

(** ** Integer arithmetic *)

Lemma wrap_int_small (z : Z) : in_int z -> wrap_int z = z.
Proof.
  unfold in_int, INT_MIN, INT_MAX, wrap_int, modulus. intros Hz.
  rewrite Z.mod_small; lia.
Qed.

Lemma wrap_int_mod (z : Z) : wrap_int z mod modulus = z mod modulus.
Proof.
  unfold wrap_int, modulus.
  rewrite Zminus_mod, Z.mod_mod by lia.
  rewrite <- Zminus_mod. f_equal. lia.
Qed.

Lemma to_unsigned_range (z : Z) : 0 <= to_unsigned z <= UINT_MAX.
Proof.
  unfold to_unsigned, UINT_MAX, modulus.
  pose proof (Z.mod_pos_bound z 4294967296). lia.
Qed.

Lemma to_unsigned_le (z : Z) : 0 <= z -> to_unsigned z <= z.
Proof. intros Hz. unfold to_unsigned, modulus. apply Z.mod_le; lia. Qed.

Lemma to_unsigned_add_mul (a b c : Z) :
  to_unsigned (int_add a (int_mul b c)) = to_unsigned (a + b * c).
Proof.
  unfold to_unsigned, int_add, int_mul.
  rewrite wrap_int_mod, Zplus_mod, wrap_int_mod, <- Zplus_mod. reflexivity.
Qed.

Lemma to_unsigned_add_mul_add (a b c d : Z) :
  to_unsigned (int_add (int_add a (int_mul b c)) d) = to_unsigned (a + b * c + d).
Proof.
  unfold to_unsigned, int_add at 1.
  rewrite wrap_int_mod, Zplus_mod.
  change (int_add a (int_mul b c) mod modulus) with (to_unsigned (int_add a (int_mul b c))).
  rewrite to_unsigned_add_mul. unfold to_unsigned.
  rewrite <- Zplus_mod. reflexivity.
Qed.

(** [(i + 1) % segments] inside a loop over [0 <= i < segments]. *)
Lemma next_segment_range (i segments : Z) :
  0 <= i < segments -> segments <= INT_MAX ->
  0 <= int_rem (int_add i 1) segments < segments.
Proof.
  intros Hi Hs. unfold int_rem, int_add.
  rewrite wrap_int_small by (unfold in_int, INT_MIN, INT_MAX in *; lia).
  rewrite Z.rem_mod_nonneg by lia.
  apply Z.mod_pos_bound. lia.
Qed.

Lemma int_incr_small (z : Z) : INT_MIN <= z < INT_MAX -> int_incr z = z + 1.
Proof.
  intros Hz. unfold int_incr, int_add. apply wrap_int_small.
  unfold in_int. lia.
Qed.

(** ** Counted loops *)

(** Invariant rule for [for (int i = 0; i < n; ++i)]. *)
Lemma for_range_invariant {A : Type} (P : Z -> A -> Prop) (n : Z)
    (body : Z -> A -> A) (a : A) :
  0 <= n ->
  P 0 a ->
  (forall i acc, 0 <= i < n -> P i acc -> P (i + 1) (body i acc)) ->
  P n (for_range n body a).
Proof.
  intros Hn H0 Hstep. unfold for_range.
  assert (Hk : forall k, (k <= Z.to_nat n)%nat ->
            P (Z.of_nat k)
              (fold_left (fun acc i => body (Z.of_nat i) acc) (seq 0 k) a)).
  { induction k as [|k IH]; intros Hle.
    - exact H0.
    - rewrite seq_S, fold_left_app. cbn [fold_left Nat.add].
      replace (Z.of_nat (S k)) with (Z.of_nat k + 1) by lia.
      apply Hstep; [lia | apply IH; lia]. }
  specialize (Hk (Z.to_nat n) (Nat.le_refl _)).
  rewrite Z2Nat.id in Hk by assumption. exact Hk.
Qed.

Section MeshProperties.

Context {F : Type} `{FloatOps F}.

Lemma vertex_count_sized (m : Mesh F) (n ni : Z) :
  sized (stride * n) ni m -> vertex_count m = n.
Proof.
  intros [Hv _]. unfold vertex_count. rewrite Hv. unfold stride.
  rewrite Z.mul_comm. apply Z.div_mul. lia.
Qed.

Lemma indices_below_push_back (m : Mesh F) (k e bound : Z) :
  indices_below bound m ->
  to_unsigned k = to_unsigned e -> 0 <= e < bound ->
  indices_below bound (push_back m k).
Proof.
  intros Hb Hk He. unfold indices_below. cbn [push_back indices].
  apply Forall_app. split; [exact Hb|].
  constructor; [|constructor].
  rewrite Hk. pose proof (to_unsigned_range e). pose proof (to_unsigned_le e). lia.
Qed.

Lemma well_indexed_counts (n k : Z) (m : Mesh F) :
  well_indexed n k m ->
  vertex_count m = n /\ index_count m = k /\
  Forall (fun i => i < vertex_count m) (indices m).
Proof.
  intros [Hs Hb].
  pose proof (vertex_count_sized m n k Hs) as Hn.
  split; [exact Hn|]. split; [exact (proj2 Hs)|].
  rewrite Hn. unfold indices_below in Hb.
  eapply Forall_impl; [|exact Hb]. cbn. intros a Ha. lia.
Qed.

End MeshProperties.

Ltac push_index :=
  eapply indices_below_push_back;
  [ | first [ apply to_unsigned_add_mul_add | apply to_unsigned_add_mul | reflexivity ]
    | lia ].

Section Generators.

Context {F : Type} `{FloatOps F}.
Variables cosf sinf : F -> F.

(** Shape of the cone for any segment count the loops can run with. *)
Lemma generateCone_shape (radius height : F) (segments tex : Z) :
  0 <= segments <= INT_MAX ->
  exists m, generateCone cosf sinf radius height segments tex = Returned m /\
    well_indexed (2 + 2 * segments) (6 * segments) m.
Proof.
  intros [Hlo Hhi]. unfold generateCone. cbv zeta.
  eexists. split; [reflexivity|].
  assert (Hsized : forall m : Mesh F,
    well_indexed (2 + 2 * segments) (6 * segments) m ->
    well_indexed (2 + 2 * segments) (6 * segments) (set_texture m tex)).
  { intros m Hm. exact Hm. }
  apply Hsized. clear Hsized.
  replace (6 * segments) with (3 * segments + 3 * segments) by lia.
  apply (for_range_invariant
           (fun i m => well_indexed (2 + 2 * segments) (3 * segments + 3 * i) m));
    [exact Hlo| |].
  - replace (3 * segments + 3 * 0) with (3 * segments) by lia.
    apply (for_range_invariant
             (fun i m => well_indexed (2 + 2 * segments) (3 * i) m));
      [exact Hlo| |].
    + unfold well_indexed.
      replace (stride * (2 + 2 * segments)) with (28 + 28 * segments)
        by (unfold stride; lia).
      replace (3 * 0) with 0 by lia.
      apply (for_range_invariant
               (fun i m => sized (28 + 28 * i) 0 m /\
                           indices_below (2 + 2 * segments) m));
        [exact Hlo| |].
      * split; [split; reflexivity | constructor].
      * intros i acc Hi [[Hv Hn] Hb]. split; [|exact Hb].
        split; [|exact Hn].
        cbn [insert_end vertices]. rewrite !length_app. cbn [length]. lia.
    + intros i acc Hi [Hs Hb].
      pose proof (next_segment_range i segments Hi Hhi) as Hnext.
      split.
      * destruct Hs as [Hv Hn]. split; [exact Hv|].
        cbn [push_back indices]. rewrite !length_app.
        cbn [length]. lia.
      * push_index. push_index. push_index. exact Hb.
  - intros i acc Hi [Hs Hb].
    pose proof (next_segment_range i segments Hi Hhi) as Hnext.
    split.
    + destruct Hs as [Hv Hn]. split; [exact Hv|].
      cbn [push_back indices]. rewrite !length_app.
      cbn [length]. lia.
    + push_index. push_index. push_index. exact Hb.
Qed.

(** Shape of the cylinder: four triangles, twelve indices, per segment. *)
Lemma generateCylinder_shape (radius height : F) (segments tex : Z) :
  0 <= segments <= INT_MAX ->
  exists m, generateCylinder cosf sinf radius height segments tex = Returned m /\
    well_indexed (2 + 4 * segments) (12 * segments) m.
Proof.
  intros [Hlo Hhi]. unfold generateCylinder. cbv zeta.
  eexists. split; [reflexivity|].
  assert (Hsized : forall m : Mesh F,
    well_indexed (2 + 4 * segments) (12 * segments) m ->
    well_indexed (2 + 4 * segments) (12 * segments) (set_texture m tex)).
  { intros m Hm. exact Hm. }
  apply Hsized. clear Hsized.
  apply (for_range_invariant
           (fun i m => well_indexed (2 + 4 * segments) (12 * i) m));
    [exact Hlo| |].
  - unfold well_indexed.
    replace (stride * (2 + 4 * segments)) with (28 + 56 * segments)
      by (unfold stride; lia).
    replace (12 * 0) with 0 by lia.
    apply (for_range_invariant
             (fun i m => sized (28 + 56 * i) 0 m /\
                         indices_below (2 + 4 * segments) m));
      [exact Hlo| |].
    + split; [split; reflexivity | constructor].
    + intros i acc Hi [[Hv Hn] Hb]. split; [|exact Hb].
      split; [|exact Hn].
      cbn [insert_end vertices]. rewrite !length_app. cbn [length]. lia.
  - intros i acc Hi [[Hv Hn] Hb].
    pose proof (next_segment_range i segments Hi Hhi) as Hnext.
    split.
    + split; [exact Hv|].
      cbn [push_back indices]. rewrite !length_app. cbn [length]. lia.
    + do 12 push_index. exact Hb.
Qed.

End Generators.

(** ** Mesh generators *)

(** C8. For every segment count of at least 3, [generateCone] returns a
    mesh with exactly [2 + 2 * segments] vertices (14 floats each) and
    exactly [6 * segments] indices, and every index is less than the
    vertex count. *)
Theorem generateCone_counts {F : Type} `{FloatOps F} (cosf sinf : F -> F)
    (radius height : F) (segments tex : Z) :
  3 <= segments <= INT_MAX ->
  exists m, generateCone cosf sinf radius height segments tex = Returned m /\
    Z.of_nat (length (vertices m)) = stride * (2 + 2 * segments) /\
    vertex_count m = 2 + 2 * segments /\
    index_count m = 6 * segments /\
    Forall (fun i => i < vertex_count m) (indices m).
Proof.
  intros Hseg.
  destruct (generateCone_shape cosf sinf radius height segments tex) as (m & Hm & Hw);
    [lia|].
  exists m. split; [exact Hm|].
  split; [exact (proj1 (proj1 Hw))|].
  exact (well_indexed_counts _ _ _ Hw).
Qed.

(** The roof of a house, [generateCone(3.5f, 3.0f, 4, houseTex)]. *)
Lemma generateCone_counts_witness :
  3 <= 4 <= INT_MAX /\
  exists m, generateCone Scenes.cos_taylor Scenes.sin_taylor
              (Scenes.fl 7 2) (of_int 3) 4 0 = Returned m /\
    Z.of_nat (length (vertices m)) = stride * (2 + 2 * 4) /\
    vertex_count m = 2 + 2 * 4 /\
    index_count m = 6 * 4 /\
    Forall (fun i => i < vertex_count m) (indices m).
Proof.
  split.
  - unfold INT_MAX. lia.
  - apply generateCone_counts. unfold INT_MAX. lia.
Defined.

(** The cylinder of the specification has 8 indices per segment; the
    generator emits 12 (two cap triangles and two side triangles). *)
Lemma cylinder_index_count_counterexample :
  ~ cylinder_counts_as_specified (F := spec_float).
Proof.
  intros Hclaim.
  assert (Hseg : 3 <= 3 <= INT_MAX) by (unfold INT_MAX; lia).
  destruct (Hclaim Scenes.cos_taylor Scenes.sin_taylor (Scenes.fl 3 2) (of_int 15) 3 0 Hseg)
    as (m & Hm & _ & Hk & _).
  destruct (generateCylinder_shape Scenes.cos_taylor Scenes.sin_taylor
              (Scenes.fl 3 2) (of_int 15) 3 0) as (m' & Hm' & [[_ Hk'] _]);
    [unfold INT_MAX; lia|].
  rewrite Hm in Hm'. injection Hm' as <-.
  unfold index_count in Hk. lia.
Qed.

(** C3 (amended). For every segment count of at least 3,
    [generateCylinder] returns a mesh with exactly [2 + 4 * segments]
    vertices and exactly [12 * segments] indices, and every index is less
    than the vertex count. *)
Theorem generateCylinder_counts {F : Type} `{FloatOps F} (cosf sinf : F -> F)
    (radius height : F) (segments tex : Z) :
  3 <= segments <= INT_MAX ->
  exists m, generateCylinder cosf sinf radius height segments tex = Returned m /\
    Z.of_nat (length (vertices m)) = stride * (2 + 4 * segments) /\
    vertex_count m = 2 + 4 * segments /\
    index_count m = 12 * segments /\
    Forall (fun i => i < vertex_count m) (indices m).
Proof.
  intros Hseg.
  destruct (generateCylinder_shape cosf sinf radius height segments tex) as (m & Hm & Hw);
    [lia|].
  exists m. split; [exact Hm|].
  split; [exact (proj1 (proj1 Hw))|].
  exact (well_indexed_counts _ _ _ Hw).
Qed.

(** The tree trunk, [generateCylinder(1.5f, 15.0f, 32, treeBarkTex)]. *)
Lemma generateCylinder_counts_witness :
  3 <= 32 <= INT_MAX /\
  exists m, generateCylinder Scenes.cos_taylor Scenes.sin_taylor
              (Scenes.fl 3 2) (of_int 15) 32 0 = Returned m /\
    Z.of_nat (length (vertices m)) = stride * (2 + 4 * 32) /\
    vertex_count m = 2 + 4 * 32 /\
    index_count m = 12 * 32 /\
    Forall (fun i => i < vertex_count m) (indices m).
Proof.
  split.
  - unfold INT_MAX. lia.
  - apply generateCylinder_counts. unfold INT_MAX. lia.
Defined.

(** Neither generator has a failing path: with zero segments both
    return. *)
Lemma zero_segments_counterexample :
  ~ zero_segments_rejected (F := spec_float).
Proof.
  intros Hclaim.
  destruct (Hclaim Scenes.cos_taylor Scenes.sin_taylor (of_int 1) (of_int 1) 0)
    as [[what Hthrown] _].
  unfold generateCone in Hthrown. discriminate Hthrown.
Qed.

(** C5 (amended). Called with zero segments, [generateCone] and
    [generateCylinder] do not fail: no loop body runs and each returns
    the degenerate mesh made of its two centre vertices and no index. *)
Theorem zero_segments_degenerate_mesh {F : Type} `{FloatOps F} (cosf sinf : F -> F)
    (radius height : F) (tex : Z) :
  exists cone cyl,
    generateCone cosf sinf radius height 0 tex = Returned cone /\
    generateCylinder cosf sinf radius height 0 tex = Returned cyl /\
    vertex_count cone = 2 /\ indices cone = [] /\
    vertex_count cyl = 2 /\ indices cyl = [].
Proof.
  eexists. eexists.
  split; [reflexivity|]. split; [reflexivity|].
  repeat split; reflexivity.
Qed.

(** ** Height field *)

Section HeightField.

Context {F : Type} `{FloatOps F}.

(** The guard of [getTerrainHeight]: the coordinate lies strictly
    outside the square footprint. *)
Lemma getTerrainHeight_outside (worldX worldZ : F) (heightMap : Image) (tScale hScale : F) :
  (let halfSize := fdiv (fmul (of_int 100) tScale) (of_int 2) in
   flt worldX (fneg halfSize) || fgt worldX halfSize
   || flt worldZ (fneg halfSize) || fgt worldZ halfSize) = true ->
  getTerrainHeight worldX worldZ heightMap tScale hScale = Ok (of_int 0).
Proof.
  cbv zeta. intros Hguard. unfold getTerrainHeight. cbv zeta.
  rewrite Hguard. reflexivity.
Qed.

Lemma clamp_in_bounds (x size : Z) :
  0 < size <= UINT_MAX -> 0 <= x ->
  0 <= (if x >=? size then uint_sub size 1 else x) < size.
Proof.
  intros Hsize Hx. unfold uint_sub, to_unsigned, modulus, UINT_MAX in *.
  destruct (x >=? size) eqn:Hge.
  - rewrite Z.mod_small; lia.
  - lia.
Qed.

Lemma getPixel_loaded (img : Image) (x y : Z) :
  loaded img -> 0 <= x < size_x img -> 0 <= y < size_y img ->
  exists c, getPixel img x y = Ok c.
Proof.
  intros (Hx & Hy & Hlen) Hxr Hyr. unfold getPixel.
  replace (x <? size_x img) with true by (symmetry; apply Z.ltb_lt; lia).
  replace (y <? size_y img) with true by (symmetry; apply Z.ltb_lt; lia).
  cbn [andb].
  destruct (nth_error (pixels img) (Z.to_nat (x + y * size_x img))) as [c|] eqn:Hnth.
  - exists c. reflexivity.
  - apply nth_error_None in Hnth. exfalso. nia.
Qed.

(** On a loaded image every query yields an elevation. *)
Lemma getTerrainHeight_loaded (worldX worldZ : F) (heightMap : Image) (tScale hScale : F) :
  loaded heightMap ->
  exists h, getTerrainHeight worldX worldZ heightMap tScale hScale = Ok h.
Proof.
  intros Hl. unfold getTerrainHeight. cbv zeta.
  destruct (flt worldX _ || fgt worldX _ || flt worldZ _ || fgt worldZ _).
  - eexists. reflexivity.
  - pose proof Hl as (Hx & Hy & Hlen).
    match goal with
    | |- context [getPixel heightMap ?x ?y] =>
        destruct (getPixel_loaded heightMap x y) as [c Hc]
    end.
    + exact Hl.
    + apply clamp_in_bounds; [assumption|]. apply to_unsigned_range.
    + apply clamp_in_bounds; [assumption|]. apply to_unsigned_range.
    + rewrite Hc. cbn [bind]. eexists. reflexivity.
Qed.

(** Over a loaded image the two clamps of lines 338-339 take the
    smaller of the scaled index and the last index. *)
Lemma clamp_min (x size : Z) :
  0 < size <= UINT_MAX ->
  (if x >=? size then uint_sub size 1 else x) = Z.min x (size - 1).
Proof.
  intros Hsize. unfold uint_sub, to_unsigned, modulus, UINT_MAX in *.
  destruct (x >=? size) eqn:Hge.
  - apply Z.geb_le in Hge. rewrite Z.mod_small by lia. lia.
  - rewrite Z.geb_leb in Hge. apply Z.leb_gt in Hge. lia.
Qed.

(** A coordinate the guard lets through is sampled inside the image. *)
Lemma getTerrainHeight_inside (worldX worldZ : F) (heightMap : Image) (tScale hScale : F) :
  loaded heightMap ->
  (let halfSize := fdiv (fmul (of_int 100) tScale) (of_int 2) in
   flt worldX (fneg halfSize) || fgt worldX halfSize
   || flt worldZ (fneg halfSize) || fgt worldZ halfSize) = false ->
  let mapSize := fmul (of_int 100) tScale in
  let halfSize := fdiv mapSize (of_int 2) in
  let column := Z.min (to_uint (fmul (fdiv (fadd worldX halfSize) mapSize)
                                     (of_int (size_x heightMap))))
                      (size_x heightMap - 1) in
  let row := Z.min (to_uint (fmul (fdiv (fadd worldZ halfSize) mapSize)
                                  (of_int (size_y heightMap))))
                   (size_y heightMap - 1) in
  0 <= column < size_x heightMap /\ 0 <= row < size_y heightMap /\
  exists c, getPixel heightMap column row = Ok c /\
    getTerrainHeight worldX worldZ heightMap tScale hScale
    = Ok (fmul (fdiv (of_int (red c)) (of_int 255)) hScale).
Proof.
  cbv zeta. intros Hl Hguard. pose proof Hl as (Hx & Hy & Hlen).
  match goal with
  | |- 0 <= Z.min (to_uint ?a) _ < _ /\ 0 <= Z.min (to_uint ?b) _ < _ /\ _ =>
      pose proof (to_unsigned_range (ftrunc a)) as Ha;
      pose proof (to_unsigned_range (ftrunc b)) as Hb;
      fold (to_uint a) in Ha; fold (to_uint b) in Hb;
      assert (Hcol : 0 <= Z.min (to_uint a) (size_x heightMap - 1) < size_x heightMap) by lia;
      assert (Hrow : 0 <= Z.min (to_uint b) (size_y heightMap - 1) < size_y heightMap) by lia
  end.
  split; [exact Hcol|]. split; [exact Hrow|].
  destruct (getPixel_loaded heightMap _ _ Hl Hcol Hrow) as [c Hc].
  exists c. split; [exact Hc|].
  unfold getTerrainHeight. cbv zeta. rewrite Hguard.
  rewrite (clamp_min _ _ Hx), (clamp_min _ _ Hy), Hc. reflexivity.
Qed.

End HeightField.

(** C2 (the code departs from the claim). On the image of a failed load
    (size 0 x 0) a query inside the footprint does not return 0: both
    clamps compute [0u - 1] and the pixel (4294967295, 4294967295) is
    read outside the image. *)
Theorem getTerrainHeight_unloaded_image {F : Type} `{FloatOps F}
    (worldX worldZ tScale hScale : F) :
  (let halfSize := fdiv (fmul (of_int 100) tScale) (of_int 2) in
   flt worldX (fneg halfSize) || fgt worldX halfSize
   || flt worldZ (fneg halfSize) || fgt worldZ halfSize) = false ->
  getTerrainHeight worldX worldZ Image_new tScale hScale = OutOfBounds UINT_MAX UINT_MAX.
Proof.
  cbv zeta. intros Hguard. unfold getTerrainHeight. cbv zeta.
  rewrite Hguard. cbn [Image_new size_x size_y].
  assert (Hclamp : forall x, (if to_uint x >=? 0 then uint_sub 0 1 else to_uint x) = UINT_MAX).
  { intros x. unfold to_uint. pose proof (to_unsigned_range (ftrunc x)) as Hr.
    replace (to_unsigned (ftrunc x) >=? 0) with true by (symmetry; apply Z.geb_le; lia).
    reflexivity. }
  rewrite !Hclamp. reflexivity.
Qed.

(** The query at the origin with the scales of [main]. *)
Lemma getTerrainHeight_unloaded_image_witness :
  getTerrainHeight (of_int 0) (of_int 0) Image_new (of_int 2) (of_int 10)
  = (OutOfBounds UINT_MAX UINT_MAX : result spec_float).
Proof.
  apply getTerrainHeight_unloaded_image. vm_compute. reflexivity.
Defined.

(** On the boundary itself the edge pixel is sampled: with
    [terrainScale = 2] the point (100, 0) has elevation 10 over a
    full-red map. *)
Lemma boundary_sample_counterexample :
  ~ zero_at_or_beyond_boundary (F := spec_float).
Proof.
  intros Hclaim.
  assert (Hl : loaded Scenes.whiteMap).
  { unfold loaded, UINT_MAX. cbn. lia. }
  specialize (Hclaim (of_int 100) (of_int 0) Scenes.whiteMap (of_int 2) (of_int 10) Hl).
  cbv zeta in Hclaim.
  assert (Hval : getTerrainHeight (of_int 100) (of_int 0) Scenes.whiteMap (of_int 2) (of_int 10)
                 = Ok (of_int 10 : spec_float)) by (vm_compute; reflexivity).
  rewrite Hval in Hclaim.
  assert (Hne : Ok (of_int 10 : spec_float) <> Ok (of_int 0)) by (vm_compute; discriminate).
  apply Hne. apply Hclaim. vm_compute. reflexivity.
Qed.

(** C4 (amended). [getTerrainHeight] returns exactly 0 for every
    coordinate strictly beyond the half-extent boundary
    ([worldX < -halfSize], [worldX > halfSize], [worldZ < -halfSize] or
    [worldZ > halfSize], with [halfSize = 100 * terrainScale / 2]),
    whatever the image.  Over a loaded height map it is deterministic:
    every query returns an elevation, never a read outside the image, and
    the same coordinates against the same map and scales give that same
    elevation.  Every coordinate that the four strict comparisons do not
    reject is sampled: the scaled column and row, each replaced by the
    last index where it reaches the image size, lie inside the image, and
    the result is [red / 255 * heightScale] of the pixel there. *)
Theorem getTerrainHeight_zero_beyond_boundary {F : Type} `{FloatOps F}
    (worldX worldZ : F) (heightMap : Image) (tScale hScale : F) :
  let mapSize := fmul (of_int 100) tScale in
  let halfSize := fdiv mapSize (of_int 2) in
  let beyond := flt worldX (fneg halfSize) || fgt worldX halfSize
                || flt worldZ (fneg halfSize) || fgt worldZ halfSize in
  let column := Z.min (to_uint (fmul (fdiv (fadd worldX halfSize) mapSize)
                                     (of_int (size_x heightMap))))
                      (size_x heightMap - 1) in
  let row := Z.min (to_uint (fmul (fdiv (fadd worldZ halfSize) mapSize)
                                  (of_int (size_y heightMap))))
                   (size_y heightMap - 1) in
  (beyond = true ->
   getTerrainHeight worldX worldZ heightMap tScale hScale = Ok (of_int 0)) /\
  (loaded heightMap ->
   (exists h,
      getTerrainHeight worldX worldZ heightMap tScale hScale = Ok h /\
      forall worldX' worldZ' heightMap' tScale' hScale',
        worldX' = worldX -> worldZ' = worldZ -> heightMap' = heightMap ->
        tScale' = tScale -> hScale' = hScale ->
        getTerrainHeight worldX' worldZ' heightMap' tScale' hScale' = Ok h) /\
   (beyond = false ->
    0 <= column < size_x heightMap /\ 0 <= row < size_y heightMap /\
    exists c, getPixel heightMap column row = Ok c /\
      getTerrainHeight worldX worldZ heightMap tScale hScale
      = Ok (fmul (fdiv (of_int (red c)) (of_int 255)) hScale))).
Proof.
  cbv zeta. split.
  - intros Hguard. apply getTerrainHeight_outside. exact Hguard.
  - intros Hl. split.
    + destruct (getTerrainHeight_loaded worldX worldZ heightMap tScale hScale Hl) as [h Hh].
      exists h. split; [exact Hh|].
      intros x' z' img' ts' hs' -> -> -> -> ->. exact Hh.
    + intros Hguard. exact (getTerrainHeight_inside _ _ _ _ _ Hl Hguard).
Qed.

(** With the scales of [main]: the point (101, 0) lies beyond the
    boundary; the corner (100, 100) lies on it and is sampled, over the
    2 x 2 map, from the last column of the last row. *)
Lemma getTerrainHeight_zero_beyond_boundary_witness :
  getTerrainHeight (of_int 101) (of_int 0) Scenes.whiteMap (of_int 2) (of_int 10)
  = Ok (of_int 0 : spec_float) /\
  (exists h : spec_float,
     getTerrainHeight (of_int 100) (of_int 100) Scenes.quadMap (of_int 2) (of_int 10) = Ok h) /\
  (exists c,
     getPixel Scenes.quadMap 1 1 = Ok c /\ red c = 40 /\
     getTerrainHeight (of_int 100) (of_int 100) Scenes.quadMap (of_int 2) (of_int 10)
     = Ok (fmul (fdiv (of_int (red c)) (of_int 255)) (of_int 10) : spec_float)).
Proof.
  assert (Hl : loaded Scenes.quadMap) by (unfold loaded, UINT_MAX; cbn; lia).
  split.
  - apply (proj1 (getTerrainHeight_zero_beyond_boundary
                    (of_int 101) (of_int 0) Scenes.whiteMap (of_int 2) (of_int 10))).
    vm_compute. reflexivity.
  - destruct (proj2 (getTerrainHeight_zero_beyond_boundary
                       (of_int 100) (of_int 100) Scenes.quadMap (of_int 2) (of_int 10)) Hl)
      as [[h [Hh _]] Hsample].
    split; [exists h; exact Hh|].
    destruct Hsample as (_ & _ & c & Hc & Hval); [vm_compute; reflexivity|].
    exists c. split; [exact Hc|]. split; [|exact Hval].
    vm_compute in Hc. injection Hc as <-. reflexivity.
Defined.

(** ** Parcel update *)

Section Update.

Context {F : Type} `{FloatOps F}.

Lemma t_set_active_inactive (t : Target F) :
  t_active t = false -> t_set_active t false = t.
Proof. destruct t as [pos body roof r a]. cbn. intros ->. reflexivity. Qed.

Lemma testTargets_spec (p : Parcel F) (ts : list (Target F)) (sc : Z) :
  hit_result p ts sc (testTargets p ts sc).
Proof.
  induction ts as [|t rest IH]; cbn [testTargets].
  - apply no_hit. intros t [].
  - destruct (t_active t) eqn:Hactive; cbn [negb].
    + destruct (in_range p t) eqn:Hrange.
      * apply (first_hit p (t :: rest) sc [] t rest); auto.
        intros t' [].
      * inversion IH as [Hnone Heq | before t0 after Hts Ha Hr Hbefore Heq].
        -- apply no_hit. intros t' [<- | Hin] Ha'; auto.
        -- rewrite Hts.
           apply (first_hit p (t :: before ++ t0 :: after) sc (t :: before) t0 after); auto.
           intros t' [<- | Hin] Ha'; auto.
    + inversion IH as [Hnone Heq | before t0 after Hts Ha Hr Hbefore Heq].
      * apply no_hit. intros t' [<- | Hin] Ha'; [congruence | auto].
      * rewrite Hts.
        apply (first_hit p (t :: before ++ t0 :: after) sc (t :: before) t0 after); auto.
        intros t' [<- | Hin] Ha'; [congruence | auto].
Qed.

Lemma hit_result_cases (p : Parcel F) (ts : list (Target F)) (sc : Z)
    (p' : Parcel F) (ts' : list (Target F)) (sc' : Z) :
  hit_result p ts sc (p', ts', sc') ->
  (p' = p /\ ts' = ts /\ sc' = sc /\
   forall t, In t ts -> t_active t = true -> in_range p t = false)
  \/
  (exists before t after,
     ts = before ++ t :: after /\ t_active t = true /\ in_range p t = true /\
     (forall t', In t' before -> t_active t' = true -> in_range p t' = false) /\
     p' = p_set_active p false /\
     ts' = before ++ t_set_active t false :: after /\
     sc' = int_incr sc).
Proof.
  intros Hres. inversion Hres; subst.
  - left. auto.
  - right. eauto 12.
Qed.

Section Loaded.

Variable heightMap : Image.
Hypothesis Hloaded : loaded heightMap.

Lemma ground_loaded (p : Parcel F) :
  getTerrainHeight (vec_x (p_position p)) (vec_z (p_position p))
    heightMap terrainScale terrainHeightScale = Ok (ground heightMap p).
Proof.
  unfold ground.
  destruct (getTerrainHeight_loaded (vec_x (p_position p)) (vec_z (p_position p))
              heightMap terrainScale terrainHeightScale Hloaded) as [h Hh].
  rewrite Hh. reflexivity.
Qed.

Lemma updateParcel_loaded (dt : F) (p : Parcel F) (ts : list (Target F)) (sc : Z) :
  updateParcel dt heightMap p ts sc = Ok (stepParcel dt heightMap p ts sc).
Proof.
  unfold updateParcel, stepParcel. cbv zeta.
  destruct (negb (p_active p)); [reflexivity|].
  rewrite ground_loaded. cbn [bind]. unfold landed.
  destruct (fle _ _); reflexivity.
Qed.

Lemma updateParcels_loaded (dt : F) (ps : list (Parcel F)) (ts : list (Target F)) (sc : Z) :
  updateParcels dt heightMap ps ts sc = Ok (stepParcels dt heightMap ps ts sc).
Proof.
  revert ts sc. induction ps as [|p rest IH]; intros ts sc; cbn [updateParcels stepParcels].
  - reflexivity.
  - rewrite updateParcel_loaded. cbn [bind].
    destruct (stepParcel dt heightMap p ts sc) as [[p' ts'] sc'].
    rewrite IH. cbn [bind].
    destruct (stepParcels dt heightMap rest ts' sc') as [[rest' ts''] sc''].
    reflexivity.
Qed.

Lemma simulate_loaded (dts : list F) (ps : list (Parcel F)) (ts : list (Target F)) (sc : Z) :
  simulate heightMap dts ps ts sc = Ok (steps heightMap dts ps ts sc).
Proof.
  revert ps ts sc. induction dts as [|dt rest IH]; intros ps ts sc; cbn [simulate steps].
  - reflexivity.
  - rewrite updateParcels_loaded. cbn [bind].
    destruct (stepParcels dt heightMap ps ts sc) as [[ps' ts'] sc'].
    apply IH.
Qed.








End Loaded.

End Update.







(** ** Score and destroyed targets *)

Section Score.

Context {F : Type} `{FloatOps F}.

Lemma scored_refl (ts : list (Target F)) (sc : Z) : scored ts sc ts sc.
Proof.
  unfold scored. rewrite Nat.sub_diag. cbn. auto.
Qed.

Lemma scored_trans (ts ts' ts'' : list (Target F)) (sc sc' sc'' : Z) :
  scored ts sc ts' sc' -> scored ts' sc' ts'' sc'' -> scored ts sc ts'' sc''.
Proof.
  intros (Hle & Hsc & Hlen) (Hle' & Hsc' & Hlen').
  split; [|split].
  - lia.
  - rewrite Hsc', Hsc, <- Nat.iter_add. f_equal. lia.
  - congruence.
Qed.

Lemma count_inactive_deactivate (before after : list (Target F)) (t : Target F) :
  t_active t = true ->
  count_inactive (before ++ t_set_active t false :: after)
  = S (count_inactive (before ++ t :: after)).
Proof.
  intros Ht. unfold count_inactive.
  rewrite !filter_app, !length_app. cbn [filter].
  replace (destroyed (t_set_active t false)) with true by reflexivity.
  replace (destroyed t) with false by (unfold destroyed; rewrite Ht; reflexivity).
  cbn [length]. lia.
Qed.

Lemma hit_result_scored (p p' : Parcel F) (ts ts' : list (Target F)) (sc sc' : Z) :
  hit_result p ts sc (p', ts', sc') -> scored ts sc ts' sc'.
Proof.
  intros Hres.
  destruct (hit_result_cases _ _ _ _ _ _ Hres)
    as [(_ & -> & -> & _) | (before & t & after & -> & Ha & _ & _ & _ & -> & ->)].
  - apply scored_refl.
  - unfold scored. rewrite count_inactive_deactivate by exact Ha.
    split; [lia|]. split.
    + replace (S _ - _)%nat with 1%nat by lia. reflexivity.
    + rewrite !length_app. reflexivity.
Qed.

Variable heightMap : Image.

Lemma stepParcel_scored (dt : F) (p : Parcel F) (ts : list (Target F)) (sc : Z) :
  scored ts sc (snd (fst (stepParcel dt heightMap p ts sc)))
               (snd (stepParcel dt heightMap p ts sc)).
Proof.
  unfold stepParcel. cbv zeta.
  destruct (negb (p_active p)); [apply scored_refl|].
  destruct (landed heightMap (integrate dt p)); [apply scored_refl|].
  pose proof (testTargets_spec (integrate dt p) ts sc) as Hspec.
  destruct (testTargets (integrate dt p) ts sc) as [[p' ts'] sc'].
  exact (hit_result_scored _ _ _ _ _ _ Hspec).
Qed.

Lemma stepParcels_scored (dt : F) (ps : list (Parcel F)) (ts : list (Target F)) (sc : Z) :
  scored ts sc (snd (fst (stepParcels dt heightMap ps ts sc)))
               (snd (stepParcels dt heightMap ps ts sc)).
Proof.
  revert ts sc. induction ps as [|p rest IH]; intros ts sc; cbn [stepParcels].
  - apply scored_refl.
  - pose proof (stepParcel_scored dt p ts sc) as Hfirst.
    destruct (stepParcel dt heightMap p ts sc) as [[p' ts'] sc'].
    specialize (IH ts' sc').
    destruct (stepParcels dt heightMap rest ts' sc') as [[rest' ts''] sc''].
    cbn [fst snd] in *. eapply scored_trans; eassumption.
Qed.

Lemma steps_scored (dts : list F) (ps : list (Parcel F)) (ts : list (Target F)) (sc : Z) :
  scored ts sc (snd (fst (steps heightMap dts ps ts sc)))
               (snd (steps heightMap dts ps ts sc)).
Proof.
  revert ps ts sc. induction dts as [|dt rest IH]; intros ps ts sc; cbn [steps].
  - apply scored_refl.
  - pose proof (stepParcels_scored dt ps ts sc) as Hfirst.
    destruct (stepParcels dt heightMap ps ts sc) as [[ps' ts'] sc'].
    cbn [fst snd] in Hfirst. eapply scored_trans; [exact Hfirst | apply IH].
Qed.

Lemma count_inactive_le_length (ts : list (Target F)) :
  (count_inactive ts <= length ts)%nat.
Proof. unfold count_inactive. apply filter_length_le. Qed.

Lemma iter_int_incr (k : nat) (z : Z) :
  INT_MIN <= z -> z + Z.of_nat k <= INT_MAX ->
  Nat.iter k int_incr z = z + Z.of_nat k.
Proof.
  induction k as [|k IH]; intros Hlo Hhi.
  - cbn. lia.
  - rewrite Nat.iter_succ, IH by lia. rewrite int_incr_small by lia. lia.
Qed.

(** With the score equal to the number of destroyed targets before a
    tick, it is so after it. *)
Lemma scored_counts (ts ts' : list (Target F)) (sc sc' : Z) :
  scored ts sc ts' sc' ->
  Z.of_nat (length ts) <= INT_MAX ->
  sc = Z.of_nat (count_inactive ts) ->
  sc' = Z.of_nat (count_inactive ts') /\ sc <= sc'.
Proof.
  intros (Hle & Hsc & Hlen) Hsmall Hcount.
  pose proof (count_inactive_le_length ts') as Hbound.
  rewrite Hsc, iter_int_incr; unfold INT_MIN in *; lia.
Qed.

Hypothesis Hloaded : loaded heightMap.
Variables parcelMesh houseBody houseRoof : Mesh F.

Lemma addTarget_loaded (i : Z) (ts : list (Target F)) :
  exists t, addTarget heightMap houseBody houseRoof i ts = Ok (ts ++ [t]) /\
            t_active t = true.
Proof.
  unfold addTarget. cbv zeta.
  match goal with
  | |- context [getTerrainHeight ?x ?z _ _ _] =>
      destruct (getTerrainHeight_loaded x z heightMap terrainScale terrainHeightScale
                  Hloaded) as [ty Hty]
  end.
  rewrite Hty. cbn [bind]. eexists. split; reflexivity.
Qed.

Lemma setupTargets_loaded :
  exists ts, setupTargets heightMap houseBody houseRoof = Ok ts /\
    length ts = 5%nat /\ Forall (fun t => t_active t = true) ts.
Proof.
  unfold setupTargets. cbn [seq fold_left bind].
  destruct (addTarget_loaded (Z.of_nat 0) []) as (t0 & -> & H0). cbn [bind app].
  destruct (addTarget_loaded (Z.of_nat 1) [t0]) as (t1 & -> & H1). cbn [bind app].
  destruct (addTarget_loaded (Z.of_nat 2) [t0; t1]) as (t2 & -> & H2). cbn [bind app].
  destruct (addTarget_loaded (Z.of_nat 3) [t0; t1; t2]) as (t3 & -> & H3). cbn [bind app].
  destruct (addTarget_loaded (Z.of_nat 4) [t0; t1; t2; t3]) as (t4 & -> & H4). cbn [bind app].
  eexists. split; [reflexivity|]. split; [reflexivity|].
  repeat constructor; assumption.
Qed.

Lemma count_inactive_all_active (ts : list (Target F)) :
  Forall (fun t => t_active t = true) ts -> count_inactive ts = 0%nat.
Proof.
  intros Hall. unfold count_inactive.
  induction Hall as [|t rest Ht _ IH]; cbn [filter].
  - reflexivity.
  - unfold destroyed at 1. rewrite Ht. cbn [negb]. exact IH.
Qed.

Lemma setupScene_loaded :
  exists w0, setupScene heightMap houseBody houseRoof = Ok w0 /\
    Forall (fun t => t_active t = true) (targets w0) /\
    score w0 = 0 /\ length (targets w0) = 5%nat /\ parcels w0 = [].
Proof.
  unfold setupScene. cbv zeta.
  match goal with
  | |- context [getTerrainHeight ?x ?z _ _ _] =>
      destruct (getTerrainHeight_loaded x z heightMap terrainScale terrainHeightScale
                  Hloaded) as [ty Hty]
  end.
  cbn [vec_x vec_z] in *. rewrite Hty. cbn [bind].
  destruct setupTargets_loaded as (ts & -> & Hlen & Hall). cbn [bind].
  eexists. split; [reflexivity|]. cbn [targets score parcels]. auto.
Qed.

Lemma handleEvents_targets (evs : list Event) (w : World F) :
  targets (fold_left (handleEvent parcelMesh) evs w) = targets w /\
  score (fold_left (handleEvent parcelMesh) evs w) = score w.
Proof.
  revert w. induction evs as [|e rest IH]; intros w; cbn [fold_left].
  - auto.
  - destruct (IH (handleEvent parcelMesh w e)) as [-> ->].
    destruct e as [|[]|]; cbn; auto.
Qed.

Lemma frame_invariant (inp : FrameInput F) (w : World F) :
  score_invariant w ->
  exists w', frame heightMap parcelMesh inp w = Ok w' /\
             score_invariant w' /\ score w <= score w'.
Proof.
  intros [Hcount Hlen]. unfold frame. cbv zeta.
  destruct (handleEvents_targets (events inp) w) as [Hts Hsc].
  set (w1 := fold_left (handleEvent parcelMesh) (events inp) w) in *.
  rewrite (updateParcels_loaded heightMap Hloaded).
  pose proof (stepParcels_scored (elapsed inp) (parcels w1) (targets w1) (score w1)) as Hs.
  destruct (stepParcels (elapsed inp) heightMap (parcels w1) (targets w1) (score w1))
    as [[ps' ts'] sc'].
  cbn [bind fst snd] in *. eexists. split; [reflexivity|].
  rewrite Hts, Hsc in Hs.
  destruct (scored_counts _ _ _ _ Hs) as [Hcount' Hmono].
  - rewrite Hlen. unfold INT_MAX. lia.
  - exact Hcount.
  - unfold score_invariant. cbn [score targets].
    destruct Hs as (_ & _ & Hlen'). repeat split; try assumption. congruence.
Qed.

Lemma mainLoop_invariant (inputs : list (FrameInput F)) (w : World F) :
  score_invariant w ->
  exists w', mainLoop heightMap parcelMesh inputs w = Ok w' /\
             score_invariant w' /\ score w <= score w'.
Proof.
  revert w. induction inputs as [|inp rest IH]; intros w Hinv; cbn [mainLoop].
  - exists w. split; [reflexivity|]. split; [exact Hinv | lia].
  - destruct (isOpen w).
    + destruct (frame_invariant inp w Hinv) as (w1 & -> & Hinv1 & Hmono1). cbn [bind].
      destruct (IH w1 Hinv1) as (w' & Hrun & Hinv' & Hmono').
      exists w'. split; [exact Hrun|]. split; [exact Hinv' | lia].
    + exists w. split; [reflexivity|]. split; [exact Hinv | lia].
Qed.

Lemma mainLoop_app (inputs more : list (FrameInput F)) (w : World F) :
  mainLoop heightMap parcelMesh (inputs ++ more) w
  = bind (mainLoop heightMap parcelMesh inputs w) (mainLoop heightMap parcelMesh more).
Proof.
  revert w. induction inputs as [|inp rest IH]; intros w; cbn [app mainLoop bind].
  - reflexivity.
  - destruct (isOpen w) eqn:Hopen.
    + destruct (frame heightMap parcelMesh inp w) as [w1|x y]; cbn [bind].
      * apply IH.
      * reflexivity.
    + cbn [bind]. destruct more as [|inp' more']; cbn [mainLoop].
      * reflexivity.
      * rewrite Hopen. reflexivity.
Qed.

(** Frames without events are the update block alone: the parcels,
    targets and score after such frames are those of [simulate]. *)
Lemma mainLoop_simulate (inputs : list (FrameInput F)) (w : World F) :
  isOpen w = true ->
  (forall inp, In inp inputs -> events inp = []) ->
  match simulate heightMap (map elapsed inputs) (parcels w) (targets w) (score w) with
  | Ok (ps, ts, sc) =>
      exists w', mainLoop heightMap parcelMesh inputs w = Ok w' /\
                 parcels w' = ps /\ targets w' = ts /\ score w' = sc
  | OutOfBounds x y => mainLoop heightMap parcelMesh inputs w = OutOfBounds x y
  end.
Proof.
  revert w. induction inputs as [|inp rest IH]; intros w Hopen Hquiet;
    cbn [map simulate mainLoop].
  - exists w. auto.
  - rewrite Hopen. unfold frame. cbv zeta.
    rewrite (Hquiet inp (or_introl eq_refl)). cbn [fold_left].
    destruct (updateParcels (elapsed inp) heightMap (parcels w) (targets w) (score w))
      as [[[ps1 ts1] sc1]|x y]; cbn [bind].
    + apply (IH (mkWorld (isOpen w) (controls inp (airshipPos w)) (treePos w) ts1 ps1
                         (aimMode w) sc1)).
      * exact Hopen.
      * intros inp' Hin. apply Hquiet. right. exact Hin.
    + reflexivity.
Qed.

End Score.

(** C9. Over a loaded height map the scene starts with five active
    targets and score 0, and after every frame of the main loop the
    score equals the number of targets whose [active] flag is false; it
    never exceeds the initial number of targets and never decreases from
    one frame to a later one. *)
Theorem score_counts_destroyed_targets {F : Type} `{FloatOps F} (heightMap : Image)
    (parcelMesh houseBody houseRoof : Mesh F) :
  loaded heightMap ->
  exists w0,
    setupScene heightMap houseBody houseRoof = Ok w0 /\
    Forall (fun t => t_active t = true) (targets w0) /\
    score w0 = 0 /\
    forall inputs, exists w,
      mainLoop heightMap parcelMesh inputs w0 = Ok w /\
      score w = Z.of_nat (count_inactive (targets w)) /\
      score w <= Z.of_nat (length (targets w0)) /\
      forall more, exists w',
        mainLoop heightMap parcelMesh (inputs ++ more) w0 = Ok w' /\
        score w <= score w'.
Proof.
  intros Hl.
  destruct (setupScene_loaded heightMap Hl houseBody houseRoof)
    as (w0 & Hsetup & Hall & Hscore & Hlen & _).
  exists w0. split; [exact Hsetup|]. split; [exact Hall|]. split; [exact Hscore|].
  assert (Hinv0 : score_invariant w0).
  { split; [|exact Hlen]. rewrite Hscore, count_inactive_all_active by exact Hall.
    reflexivity. }
  intros inputs.
  destruct (mainLoop_invariant heightMap Hl parcelMesh inputs w0 Hinv0)
    as (w & Hrun & [Hcount Hlen'] & _).
  exists w. split; [exact Hrun|]. split; [exact Hcount|]. split.
  - rewrite Hcount, Hlen, <- Hlen'. apply inj_le. apply count_inactive_le_length.
  - intros more. rewrite mainLoop_app, Hrun. cbn [bind].
    destruct (mainLoop_invariant heightMap Hl parcelMesh more w (conj Hcount Hlen'))
      as (w' & Hrun' & _ & Hmono).
    exists w'. split; assumption.
Qed.

Lemma score_counts_destroyed_targets_witness :
  exists w0,
    setupScene Scenes.flatMap Scenes.noMesh Scenes.noMesh = Ok w0 /\
    Forall (fun t => t_active t = true) (targets w0) /\
    score w0 = 0 /\
    forall inputs, exists w,
      mainLoop Scenes.flatMap Scenes.noMesh inputs w0 = Ok w /\
      score w = Z.of_nat (count_inactive (targets w)) /\
      score w <= Z.of_nat (length (targets w0)) /\
      forall more, exists w',
        mainLoop Scenes.flatMap Scenes.noMesh (inputs ++ more) w0 = Ok w' /\
        score w <= score w'.
Proof.
  apply (score_counts_destroyed_targets Scenes.flatMap Scenes.noMesh Scenes.noMesh Scenes.noMesh).
  unfold loaded, UINT_MAX. cbn. lia.
Defined.

(** ** Order of the parcels *)

Lemma existsb_Permutation {A : Type} (f : A -> bool) (l l' : list A) :
  Permutation l l' -> existsb f l = existsb f l'.
Proof.
  induction 1 as [|x l l' _ IH|x y l|l l' l'' _ IH1 _ IH2]; cbn [existsb].
  - reflexivity.
  - rewrite IH. reflexivity.
  - destruct (f x), (f y); reflexivity.
  - congruence.
Qed.

Lemma existsb_pointwise {A : Type} (f g : A -> bool) (l : list A) :
  (forall a, f a = g a) -> existsb f l = existsb g l.
Proof.
  intros Hfg. induction l as [|a l IH]; cbn [existsb]; [reflexivity|].
  rewrite Hfg, IH. reflexivity.
Qed.

Lemma existsb_none {A : Type} (f : A -> bool) (l : list A) :
  (forall a, In a l -> f a = false) -> existsb f l = false.
Proof.
  intros Hf. destruct (existsb f l) eqn:He; [|reflexivity].
  apply existsb_exists in He as (a & Hin & Ha).
  rewrite Hf in Ha by exact Hin. discriminate Ha.
Qed.

Section Uniqueness.

Context {F : Type} `{FloatOps F}.

Lemma unique_tail (P : Target F -> bool) (t : Target F) (ts : list (Target F)) :
  unique P (t :: ts) -> unique P ts.
Proof.
  unfold unique. cbn [filter]. destruct (P t); cbn [length]; lia.
Qed.

Lemma unique_head (P : Target F -> bool) (t : Target F) (ts : list (Target F)) :
  unique P (t :: ts) -> P t = true -> forall t', In t' ts -> P t' = false.
Proof.
  unfold unique. cbn [filter]. intros Hu Ht t' Hin. rewrite Ht in Hu.
  destruct (P t') eqn:Ht'; [|reflexivity].
  assert (Hf : In t' (filter P ts)) by (apply filter_In; auto).
  destruct (filter P ts); [destruct Hf | cbn [length] in Hu; lia].
Qed.

Lemma unique_In_eq (P : Target F -> bool) (ts : list (Target F)) (t t' : Target F) :
  unique P ts -> In t ts -> In t' ts -> P t = true -> P t' = true -> t = t'.
Proof.
  induction ts as [|a ts IH]; intros Hu Hin Hin' Ht Ht'.
  - destruct Hin.
  - destruct Hin as [<- | Hin], Hin' as [<- | Hin'].
    + reflexivity.
    + rewrite (unique_head P a ts Hu Ht t' Hin') in Ht'. discriminate Ht'.
    + rewrite (unique_head P a ts Hu Ht' t Hin) in Ht. discriminate Ht.
    + apply IH; auto. exact (unique_tail P a ts Hu).
Qed.

Lemma unique_weaken (P Q : Target F -> bool) (ts : list (Target F)) :
  (forall t, P t = true -> Q t = true) -> unique Q ts -> unique P ts.
Proof.
  intros HPQ. unfold unique.
  assert (Hle : (length (filter P ts) <= length (filter Q ts))%nat).
  { induction ts as [|a ts IH]; cbn [filter]; [lia|].
    destruct (P a) eqn:HP.
    - rewrite (HPQ a HP). cbn [length]. lia.
    - destruct (Q a); cbn [length]; lia. }
  lia.
Qed.

Lemma unique_none (P : Target F -> bool) (ts : list (Target F)) :
  (forall t, P t = false) -> unique P ts.
Proof.
  intros HP. unfold unique.
  induction ts as [|a ts IH]; cbn [filter]; [cbn; lia|].
  rewrite HP. exact IH.
Qed.

Lemma unique_strike (P Q : Target F -> bool) (ts : list (Target F)) :
  (forall t, P (t_set_active t false) = P t) ->
  unique P ts -> unique P (strike Q ts).
Proof.
  intros HP. unfold unique, strike.
  assert (Heq : length (filter P (map (fun t => if Q t then t_set_active t false else t) ts))
                = length (filter P ts)).
  { induction ts as [|a ts IH]; cbn [map filter]; [reflexivity|].
    assert (Ha : P (if Q a then t_set_active a false else a) = P a)
      by (destruct (Q a); [apply HP | reflexivity]).
    rewrite Ha. destruct (P a); cbn [length]; rewrite IH; reflexivity. }
  rewrite Heq. auto.
Qed.

Lemma strike_none (P : Target F -> bool) (ts : list (Target F)) :
  (forall t, In t ts -> P t = false) -> strike P ts = ts.
Proof.
  intros HP. unfold strike. induction ts as [|a ts IH]; cbn [map]; [reflexivity|].
  rewrite HP by (left; reflexivity).
  rewrite IH by (intros t Hin; apply HP; right; exact Hin). reflexivity.
Qed.

Lemma strike_ext (P Q : Target F -> bool) (ts : list (Target F)) :
  (forall t, In t ts -> P t = Q t) -> strike P ts = strike Q ts.
Proof.
  intros HPQ. unfold strike. apply map_ext_in.
  intros t Hin. rewrite (HPQ t Hin). reflexivity.
Qed.

Lemma strike_strike (P Q : Target F -> bool) (ts : list (Target F)) :
  (forall t, Q (t_set_active t false) = Q t) ->
  strike Q (strike P ts) = strike (fun t => P t || Q t) ts.
Proof.
  intros HQ. unfold strike. rewrite map_map. apply map_ext.
  intros t. destruct (P t); cbn [orb].
  - rewrite HQ. destruct (Q t); reflexivity.
  - reflexivity.
Qed.

(** With at most one target in range, the target loop deactivates
    exactly the targets in range. *)
Lemma testTargets_strike (q : Parcel F) (ts : list (Target F)) (sc : Z) :
  unique (in_range q) ts ->
  snd (fst (testTargets q ts sc)) = strike (in_range q) ts.
Proof.
  induction ts as [|t rest IH]; intros Hu; cbn [testTargets].
  - reflexivity.
  - change (strike (in_range q) (t :: rest))
      with ((if in_range q t then t_set_active t false else t) :: strike (in_range q) rest).
    destruct (t_active t) eqn:Ha; cbn [negb].
    + destruct (in_range q t) eqn:Hr.
      * cbn [fst snd]. rewrite strike_none; [reflexivity|].
        exact (unique_head _ _ _ Hu Hr).
      * specialize (IH (unique_tail _ _ _ Hu)).
        destruct (testTargets q rest sc) as [[p' rest'] sc'].
        cbn [fst snd] in *. rewrite IH. reflexivity.
    + specialize (IH (unique_tail _ _ _ Hu)).
      destruct (testTargets q rest sc) as [[p' rest'] sc'].
      cbn [fst snd] in *. rewrite IH.
      destruct (in_range q t); [rewrite t_set_active_inactive by exact Ha|]; reflexivity.
Qed.

Variable heightMap : Image.

Lemma reaches_set_active (dts : list F) (p : Parcel F) (t : Target F) (b : bool) :
  reaches heightMap dts p (t_set_active t b) = reaches heightMap dts p t.
Proof.
  revert p. induction dts as [|dt rest IH]; intros p; cbn [reaches].
  - reflexivity.
  - cbv zeta. rewrite IH. reflexivity.
Qed.

Lemma reaches_inactive (dts : list F) (p : Parcel F) (t : Target F) :
  p_active p = false -> reaches heightMap dts p t = false.
Proof.
  intros Hp. destruct dts as [|dt rest]; cbn [reaches]; [reflexivity|].
  cbv zeta. rewrite Hp. reflexivity.
Qed.

Lemma reaches_now (dt : F) (dts : list F) (p : Parcel F) (t : Target F) :
  contact heightMap dt p t = true -> reaches heightMap (dt :: dts) p t = true.
Proof.
  unfold contact. cbn [reaches]. cbv zeta. intros Hc.
  apply andb_true_iff in Hc as [Hc Hr]. rewrite Hc, Hr. reflexivity.
Qed.

Lemma reaches_later (dt : F) (dts : list F) (p : Parcel F) (t : Target F) :
  p_active p = true -> landed heightMap (integrate dt p) = false ->
  reaches heightMap dts (integrate dt p) t = true ->
  reaches heightMap (dt :: dts) p t = true.
Proof.
  intros Hp Hl Hr. cbn [reaches]. cbv zeta. rewrite Hp, Hl, Hr.
  cbn [negb andb]. apply orb_true_r.
Qed.

Lemma reaches_cases (dt : F) (dts : list F) (p : Parcel F) (t : Target F) :
  reaches heightMap (dt :: dts) p t = true ->
  p_active p = true /\ landed heightMap (integrate dt p) = false /\
  (in_range (integrate dt p) t = true \/ reaches heightMap dts (integrate dt p) t = true).
Proof.
  cbn [reaches]. cbv zeta. intros Hr.
  apply andb_true_iff in Hr as [Hr Hor].
  apply andb_true_iff in Hr as [Hp Hl].
  apply negb_true_iff in Hl. apply orb_true_iff in Hor. auto.
Qed.

Lemma stepParcel_strike (dt : F) (p : Parcel F) (ts : list (Target F)) (sc : Z) :
  unique (contact heightMap dt p) ts ->
  snd (fst (stepParcel dt heightMap p ts sc)) = strike (contact heightMap dt p) ts.
Proof.
  intros Hu. unfold stepParcel. cbv zeta.
  destruct (p_active p) eqn:Hp; cbn [negb].
  - destruct (landed heightMap (integrate dt p)) eqn:Hl.
    + cbn [fst snd]. rewrite strike_none; [reflexivity|].
      intros t _. unfold contact. rewrite Hp, Hl. reflexivity.
    + rewrite testTargets_strike.
      * apply strike_ext. intros t _. unfold contact. rewrite Hp, Hl. reflexivity.
      * apply (unique_weaken _ (contact heightMap dt p)); [|exact Hu].
        intros t Hr. unfold contact. rewrite Hp, Hl, Hr. reflexivity.
  - cbn [fst snd]. rewrite strike_none; [reflexivity|].
    intros t _. unfold contact. rewrite Hp. reflexivity.
Qed.

Lemma stepParcels_strike (dt : F) (ps : list (Parcel F)) (ts : list (Target F)) (sc : Z) :
  (forall p, In p ps -> unique (contact heightMap dt p) ts) ->
  snd (fst (stepParcels dt heightMap ps ts sc))
  = strike (fun t => existsb (fun p => contact heightMap dt p t) ps) ts.
Proof.
  revert ts sc. induction ps as [|p rest IH]; intros ts sc Hu; cbn [stepParcels].
  - cbn [fst snd existsb]. rewrite strike_none; auto.
  - pose proof (stepParcel_strike dt p ts sc (Hu p (or_introl eq_refl))) as Hfirst.
    destruct (stepParcel dt heightMap p ts sc) as [[p' ts'] sc'].
    cbn [fst snd] in Hfirst. subst ts'.
    specialize (IH (strike (contact heightMap dt p) ts) sc').
    destruct (stepParcels dt heightMap rest (strike (contact heightMap dt p) ts) sc')
      as [[rest' ts''] sc''].
    cbn [fst snd] in *. rewrite IH.
    + rewrite strike_strike.
      * apply strike_ext. intros t _. reflexivity.
      * intros t. apply existsb_pointwise. intros p0. reflexivity.
    + intros p0 Hin. apply unique_strike; [intros t; reflexivity|].
      apply Hu. right. exact Hin.
Qed.

(** A parcel still active after a tick was active before it, was
    integrated and did not land. *)
Lemma stepParcel_active_origin (dt : F) (p : Parcel F) (ts : list (Target F)) (sc : Z) :
  p_active (fst (fst (stepParcel dt heightMap p ts sc))) = true ->
  p_active p = true /\ landed heightMap (integrate dt p) = false /\
  fst (fst (stepParcel dt heightMap p ts sc)) = integrate dt p.
Proof.
  unfold stepParcel. cbv zeta.
  destruct (p_active p) eqn:Hp; cbn [negb].
  - destruct (landed heightMap (integrate dt p)) eqn:Hl.
    + cbn. discriminate.
    + pose proof (testTargets_spec (integrate dt p) ts sc) as Hspec.
      destruct (testTargets (integrate dt p) ts sc) as [[p' ts'] sc'].
      cbn [fst]. intros Hp'.
      destruct (hit_result_cases _ _ _ _ _ _ Hspec)
        as [(-> & _) | (_ & _ & _ & _ & _ & _ & _ & -> & _)].
      * auto.
      * cbn in Hp'. discriminate Hp'.
  - cbn [fst]. congruence.
Qed.

(** An active parcel that does not land either survives the tick or is
    within range of one of the targets. *)
Lemma stepParcel_survivor (dt : F) (p : Parcel F) (ts : list (Target F)) (sc : Z) :
  p_active p = true -> landed heightMap (integrate dt p) = false ->
  fst (fst (stepParcel dt heightMap p ts sc)) = integrate dt p \/
  exists t, In t ts /\ in_range (integrate dt p) t = true.
Proof.
  intros Hp Hl. unfold stepParcel. cbv zeta. rewrite Hp, Hl. cbn [negb].
  pose proof (testTargets_spec (integrate dt p) ts sc) as Hspec.
  destruct (testTargets (integrate dt p) ts sc) as [[p' ts'] sc'].
  cbn [fst].
  destruct (hit_result_cases _ _ _ _ _ _ Hspec)
    as [(-> & _) | (before & t & after & -> & _ & Hr & _)].
  - left. reflexivity.
  - right. exists t. split; [|exact Hr].
    apply in_or_app. right. left. reflexivity.
Qed.

(** Every target after the update of a parcel is a target from before,
    possibly deactivated. *)
Lemma stepParcel_targets_from (dt : F) (p : Parcel F) (ts : list (Target F)) (sc : Z)
    (t' : Target F) :
  In t' (snd (fst (stepParcel dt heightMap p ts sc))) ->
  exists t, In t ts /\ (t' = t \/ t' = t_set_active t false).
Proof.
  unfold stepParcel. cbv zeta.
  destruct (negb (p_active p)); [cbn; eauto|].
  destruct (landed heightMap (integrate dt p)); [cbn; eauto|].
  pose proof (testTargets_spec (integrate dt p) ts sc) as Hspec.
  destruct (testTargets (integrate dt p) ts sc) as [[p' ts'] sc'].
  cbn [fst snd].
  destruct (hit_result_cases _ _ _ _ _ _ Hspec)
    as [(_ & -> & _) | (before & t & after & -> & _ & _ & _ & _ & -> & _)].
  - eauto.
  - intros Hin. apply in_app_or in Hin as [Hin | [<- | Hin]].
    + exists t'. split; [apply in_or_app; left; exact Hin | left; reflexivity].
    + exists t. split; [apply in_or_app; right; left; reflexivity | right; reflexivity].
    + exists t'. split; [apply in_or_app; right; right; exact Hin | left; reflexivity].
Qed.

Lemma stepParcels_active_origin (dt : F) (ps : list (Parcel F)) (ts : list (Target F))
    (sc : Z) (p1 : Parcel F) :
  In p1 (fst (fst (stepParcels dt heightMap ps ts sc))) ->
  p_active p1 = true ->
  exists p, In p ps /\ p_active p = true /\
            landed heightMap (integrate dt p) = false /\ p1 = integrate dt p.
Proof.
  revert ts sc. induction ps as [|p rest IH]; intros ts sc; cbn [stepParcels].
  - intros [].
  - pose proof (stepParcel_active_origin dt p ts sc) as Hfirst.
    destruct (stepParcel dt heightMap p ts sc) as [[p' ts'] sc'].
    specialize (IH ts' sc').
    destruct (stepParcels dt heightMap rest ts' sc') as [[rest' ts''] sc''].
    cbn [fst] in *. intros [<- | Hin] Hp1.
    + destruct (Hfirst Hp1) as (Hp & Hl & Heq).
      exists p. split; [left; reflexivity|]. auto.
    + destruct (IH Hin Hp1) as (p0 & Hin0 & Hrest).
      exists p0. split; [right; exact Hin0 | exact Hrest].
Qed.

Lemma stepParcels_survivor (dt : F) (ps : list (Parcel F)) (ts : list (Target F))
    (sc : Z) (p : Parcel F) :
  In p ps -> p_active p = true -> landed heightMap (integrate dt p) = false ->
  In (integrate dt p) (fst (fst (stepParcels dt heightMap ps ts sc))) \/
  exists t, In t ts /\ in_range (integrate dt p) t = true.
Proof.
  revert ts sc. induction ps as [|p0 rest IH]; intros ts sc; cbn [stepParcels].
  - intros [].
  - pose proof (stepParcel_survivor dt p0 ts sc) as Hfirst.
    pose proof (stepParcel_targets_from dt p0 ts sc) as Hfrom.
    destruct (stepParcel dt heightMap p0 ts sc) as [[p0' ts'] sc'].
    specialize (IH ts' sc').
    destruct (stepParcels dt heightMap rest ts' sc') as [[rest' ts''] sc''].
    cbn [fst snd] in *. intros [-> | Hin] Hp Hl.
    + destruct (Hfirst Hp Hl) as [-> | Hhit].
      * left. left. reflexivity.
      * right. exact Hhit.
    + destruct (IH Hin Hp Hl) as [Hkept | (t' & Hin' & Hr)].
      * left. right. exact Hkept.
      * right. destruct (Hfrom t' Hin') as (t & Hint & [-> | ->]).
        -- exists t. auto.
        -- exists t. auto.
Qed.

(** After any number of ticks, the destroyed targets are the ones
    destroyed at the start and the ones some parcel reaches, provided no
    parcel reaches two of them. *)
Lemma steps_strike (dts : list F) (ps : list (Parcel F)) (ts : list (Target F)) (sc : Z) :
  (forall p, In p ps -> unique (reaches heightMap dts p) ts) ->
  snd (fst (steps heightMap dts ps ts sc))
  = strike (fun t => existsb (fun p => reaches heightMap dts p t) ps) ts.
Proof.
  revert ps ts sc. induction dts as [|dt rest IH]; intros ps ts sc Hu; cbn [steps].
  - cbn [fst snd]. rewrite strike_none; [reflexivity|].
    intros t _. apply existsb_none. reflexivity.
  - assert (Hu1 : forall p, In p ps -> unique (contact heightMap dt p) ts).
    { intros p Hin. apply (unique_weaken _ (reaches heightMap (dt :: rest) p)).
      - intros t. apply reaches_now.
      - apply Hu. exact Hin. }
    pose proof (stepParcels_strike dt ps ts sc Hu1) as Hts1.
    pose proof (stepParcels_active_origin dt ps ts sc) as Horigin.
    pose proof (stepParcels_survivor dt ps ts sc) as Hsurvive.
    destruct (stepParcels dt heightMap ps ts sc) as [[ps1 ts1] sc1].
    cbn [fst snd] in *. subst ts1.
    rewrite IH.
    + rewrite strike_strike.
      2:{ intros t. apply existsb_pointwise. intros p. apply reaches_set_active. }
      apply strike_ext. intros t Hint.
      destruct (existsb (fun p => reaches heightMap (dt :: rest) p t) ps) eqn:Hany.
      * apply existsb_exists in Hany as (p & Hin & Hreach).
        destruct (reaches_cases dt rest p t Hreach) as (Hp & Hl & Hcase).
        apply orb_true_iff.
        assert (Hnow : in_range (integrate dt p) t = true ->
                       existsb (fun p0 => contact heightMap dt p0 t) ps = true).
        { intros Hr. apply existsb_exists. exists p. split; [exact Hin|].
          unfold contact. rewrite Hp, Hl, Hr. reflexivity. }
        destruct Hcase as [Hr | Hlater]; [left; auto|].
        destruct (Hsurvive p Hin Hp Hl) as [Hkept | (t' & Hint' & Hr')].
        -- right. apply existsb_exists. exists (integrate dt p). auto.
        -- left. apply Hnow.
           assert (Heq : t = t').
           { apply (unique_In_eq (reaches heightMap (dt :: rest) p) ts); auto.
             apply reaches_now. unfold contact. rewrite Hp, Hl, Hr'. reflexivity. }
           rewrite Heq. exact Hr'.
      * apply orb_false_iff. split.
        -- apply existsb_none. intros p Hin.
           destruct (contact heightMap dt p t) eqn:Hc; [|reflexivity].
           assert (Habs : existsb (fun p0 => reaches heightMap (dt :: rest) p0 t) ps = true).
           { apply existsb_exists. exists p. split; [exact Hin|].
             apply reaches_now. exact Hc. }
           congruence.
        -- apply existsb_none. intros p1 Hin1.
           destruct (reaches heightMap rest p1 t) eqn:Hr1; [|reflexivity].
           destruct (p_active p1) eqn:Hp1.
           ++ destruct (Horigin p1 Hin1 Hp1) as (p & Hin & Hp & Hl & ->).
              assert (Habs : existsb (fun p0 => reaches heightMap (dt :: rest) p0 t) ps = true).
              { apply existsb_exists. exists p. split; [exact Hin|].
                apply reaches_later; assumption. }
              congruence.
           ++ rewrite reaches_inactive in Hr1 by exact Hp1. discriminate Hr1.
    + intros p1 Hin1. apply unique_strike; [intros t; apply reaches_set_active|].
      destruct (p_active p1) eqn:Hp1.
      * destruct (Horigin p1 Hin1 Hp1) as (p & Hin & Hp & Hl & ->).
        apply (unique_weaken _ (reaches heightMap (dt :: rest) p)).
        -- intros t. apply reaches_later; assumption.
        -- apply Hu. exact Hin.
      * apply unique_none. intros t. apply reaches_inactive. exact Hp1.
Qed.

Lemma one_target_each_unique (dts : list F) (ps : list (Parcel F)) (ts : list (Target F)) :
  one_target_each heightMap dts ps ts = true ->
  forall p, In p ps -> unique (reaches heightMap dts p) ts.
Proof.
  unfold one_target_each, unique. intros Hall p Hin.
  rewrite forallb_forall in Hall. apply Nat.leb_le. apply Hall. exact Hin.
Qed.

End Uniqueness.

(** With two houses four units apart, the parcel between them takes the
    first house when it is ticked first, and leaves it to the other
    parcel when it is ticked second: the final score is 2 in one order
    and 1 in the other. *)
Lemma parcel_order_counterexample :
  ~ parcel_order_irrelevant (F := spec_float).
Proof.
  intros Hclaim.
  assert (Hl : loaded Scenes.flatMap) by (unfold loaded, UINT_MAX; cbn; lia).
  assert (Hperm : Permutation [Scenes.parcelLeft; Scenes.parcelMid]
                              [Scenes.parcelMid; Scenes.parcelLeft]) by apply perm_swap.
  assert (H1 : exists psf tsf,
             simulate Scenes.flatMap Scenes.twoTicks [Scenes.parcelLeft; Scenes.parcelMid]
               [Scenes.houseA; Scenes.houseB] 0 = Ok (psf, tsf, 2) /\
             Forall (fun p => p_active p = false) psf).
  { vm_compute. eexists. eexists. split; [reflexivity|].
    repeat constructor. }
  assert (H2 : exists psf tsf,
             simulate Scenes.flatMap Scenes.twoTicks [Scenes.parcelMid; Scenes.parcelLeft]
               [Scenes.houseA; Scenes.houseB] 0 = Ok (psf, tsf, 1) /\
             Forall (fun p => p_active p = false) psf).
  { vm_compute. eexists. eexists. split; [reflexivity|].
    repeat constructor. }
  destruct H1 as (psf & tsf & Hrun & Hall).
  destruct H2 as (psf' & tsf' & Hrun' & Hall').
  pose proof (Hclaim _ _ _ _ _ _ _ _ _ _ _ _ Hl Hperm Hrun Hrun' Hall Hall') as Heq.
  discriminate Heq.
Qed.

(** C1 (amended). Provided no parcel, on its fall through the ticks,
    comes within hit range of two different targets before it lands,
    any two orderings of the parcel list end every run of ticks with the
    same targets destroyed and the same score. *)
Theorem score_independent_of_parcel_order {F : Type} `{FloatOps F} (heightMap : Image)
    (dts : list F) (ps ps' : list (Parcel F)) (ts : list (Target F)) (sc : Z) :
  loaded heightMap ->
  Permutation ps ps' ->
  one_target_each heightMap dts ps ts = true ->
  exists psf psf' tsf scf,
    simulate heightMap dts ps ts sc = Ok (psf, tsf, scf) /\
    simulate heightMap dts ps' ts sc = Ok (psf', tsf, scf).
Proof.
  intros Hl Hperm Hone.
  rewrite !(simulate_loaded heightMap Hl).
  pose proof (one_target_each_unique heightMap dts ps ts Hone) as Hu.
  assert (Hu' : forall p, In p ps' -> unique (reaches heightMap dts p) ts).
  { intros p Hin. apply Hu. apply (Permutation_in p (Permutation_sym Hperm) Hin). }
  pose proof (steps_strike heightMap dts ps ts sc Hu) as Hts.
  pose proof (steps_strike heightMap dts ps' ts sc Hu') as Hts'.
  pose proof (steps_scored heightMap dts ps ts sc) as (_ & Hsc & _).
  pose proof (steps_scored heightMap dts ps' ts sc) as (_ & Hsc' & _).
  destruct (steps heightMap dts ps ts sc) as [[psf tsf] scf].
  destruct (steps heightMap dts ps' ts sc) as [[psf' tsf'] scf'].
  cbn [fst snd] in *.
  assert (Heq : tsf' = tsf).
  { rewrite Hts, Hts'. apply strike_ext. intros t _.
    symmetry. apply existsb_Permutation. exact Hperm. }
  rewrite Heq in Hsc'. exists psf, psf', tsf, scf.
  split; [reflexivity|]. rewrite Heq. congruence.
Qed.

(** The five houses of [main] and two parcels dropped near the middle
    one, in both orders. *)
Lemma score_independent_of_parcel_order_witness :
  exists psf psf' tsf scf,
    simulate Scenes.flatMap Scenes.fall [Scenes.parcelHigh; Scenes.parcelLow]
      Scenes.mainTargets 0 = Ok (psf, tsf, scf) /\
    simulate Scenes.flatMap Scenes.fall [Scenes.parcelLow; Scenes.parcelHigh]
      Scenes.mainTargets 0 = Ok (psf', tsf, scf).
Proof.
  apply (score_independent_of_parcel_order Scenes.flatMap Scenes.fall
           [Scenes.parcelHigh; Scenes.parcelLow] [Scenes.parcelLow; Scenes.parcelHigh]
           Scenes.mainTargets 0).
  - unfold loaded, UINT_MAX. cbn. lia.
  - apply perm_swap.
  - vm_compute. reflexivity.
Defined.

(** * Further properties of the code *)

(** ** Index arithmetic *)

Lemma same_bits_refl (a : Z) : same_bits a a.
Proof. reflexivity. Qed.

Lemma same_bits_add (a a' b b' : Z) :
  same_bits a a' -> same_bits b b' -> same_bits (int_add a b) (a' + b').
Proof.
  unfold same_bits, to_unsigned, int_add. intros Ha Hb.
  rewrite wrap_int_mod, Zplus_mod, Ha, Hb, <- Zplus_mod. reflexivity.
Qed.

Lemma same_bits_mul (a a' b b' : Z) :
  same_bits a a' -> same_bits b b' -> same_bits (int_mul a b) (a' * b').
Proof.
  unfold same_bits, to_unsigned, int_mul. intros Ha Hb.
  rewrite wrap_int_mod, Zmult_mod, Ha, Hb, <- Zmult_mod. reflexivity.
Qed.

Ltac bits :=
  lazymatch goal with
  | |- same_bits (int_add _ _) _ => eapply same_bits_add; bits
  | |- same_bits (int_mul _ _) _ => eapply same_bits_mul; bits
  | |- same_bits _ _ => apply same_bits_refl
  end.

Ltac push_index_bits :=
  eapply indices_below_push_back;
  [ | lazymatch goal with
      | |- to_unsigned ?k = to_unsigned ?e => change (same_bits k e); bits
      end
    | nia ].

(** ** Cube, ellipsoid and terrain *)

Section GridGenerators.

Context {F : Type} `{FloatOps F}.
Variables cosf sinf : F -> F.

Lemma generateEllipsoid_shape (rx ry rz : F) (slices stacks tex normal : Z) :
  0 <= slices < INT_MAX -> 0 <= stacks < INT_MAX ->
  exists m, generateEllipsoid cosf sinf rx ry rz slices stacks tex normal = Returned m /\
    well_indexed ((stacks + 1) * (slices + 1)) (6 * stacks * slices) m /\
    texture m = tex /\ normalMap m = normal.
Proof.
  intros [Hsl Hsl'] [Hst Hst']. unfold generateEllipsoid, for_range_incl. cbv zeta.
  eexists. split; [reflexivity|].
  split; [|split; reflexivity].
  assert (Hsized : forall m : Mesh F,
    well_indexed ((stacks + 1) * (slices + 1)) (6 * stacks * slices) m ->
    well_indexed ((stacks + 1) * (slices + 1)) (6 * stacks * slices)
      (set_normalMap (set_texture m tex) normal)).
  { intros m Hm. exact Hm. }
  apply Hsized. clear Hsized.
  apply (for_range_invariant
           (fun i m => well_indexed ((stacks + 1) * (slices + 1)) (6 * i * slices) m));
    [exact Hst| |].
  - unfold well_indexed. replace (6 * 0 * slices) with 0 by lia.
    replace (stride * ((stacks + 1) * (slices + 1)))
      with (14 * (stacks + 1) * (slices + 1)) by (unfold stride; lia).
    apply (for_range_invariant
             (fun i m => sized (14 * i * (slices + 1)) 0 m /\
                         indices_below ((stacks + 1) * (slices + 1)) m));
      [lia| |].
    + split; [split; reflexivity | constructor].
    + intros i acc Hi Hacc.
      replace (14 * (i + 1) * (slices + 1))
        with (14 * i * (slices + 1) + 14 * (slices + 1)) by lia.
      apply (for_range_invariant
               (fun j m => sized (14 * i * (slices + 1) + 14 * j) 0 m /\
                           indices_below ((stacks + 1) * (slices + 1)) m));
        [lia| |].
      * replace (14 * i * (slices + 1) + 14 * 0) with (14 * i * (slices + 1)) by lia.
        exact Hacc.
      * intros j acc' Hj [[Hv Hn] Hb]. split; [|exact Hb].
        split; [|exact Hn].
        cbn [insert_end vertices]. rewrite !length_app. cbn [length]. lia.
  - intros i acc Hi Hacc.
    replace (6 * (i + 1) * slices) with (6 * i * slices + 6 * slices) by lia.
    apply (for_range_invariant
             (fun j m => well_indexed ((stacks + 1) * (slices + 1))
                           (6 * i * slices + 6 * j) m));
      [exact Hsl| |].
    + replace (6 * i * slices + 6 * 0) with (6 * i * slices) by lia. exact Hacc.
    + intros j acc' Hj [[Hv Hn] Hb]. split.
      * split; [exact Hv|].
        cbn [push_back indices]. rewrite !length_app. cbn [length]. lia.
      * do 6 push_index_bits. exact Hb.
Qed.

Lemma generateTerrain_shape (width depth tex heightTex : Z) :
  0 <= width < INT_MAX -> 0 <= depth < INT_MAX ->
  exists m, generateTerrain (F := F) width depth tex heightTex = Returned m /\
    well_indexed ((width + 1) * (depth + 1)) (6 * width * depth) m /\
    texture m = tex.
Proof.
  intros [Hw Hw'] [Hd Hd']. unfold generateTerrain, for_range_incl. cbv zeta.
  eexists. split; [reflexivity|].
  split; [|reflexivity].
  assert (Hsized : forall m : Mesh F,
    well_indexed ((width + 1) * (depth + 1)) (6 * width * depth) m ->
    well_indexed ((width + 1) * (depth + 1)) (6 * width * depth) (set_texture m tex)).
  { intros m Hm. exact Hm. }
  apply Hsized. clear Hsized.
  replace (6 * width * depth) with (6 * depth * width) by lia.
  apply (for_range_invariant
           (fun z m => well_indexed ((width + 1) * (depth + 1)) (6 * z * width) m));
    [exact Hd| |].
  - unfold well_indexed. replace (6 * 0 * width) with 0 by lia.
    replace (stride * ((width + 1) * (depth + 1)))
      with (14 * (depth + 1) * (width + 1)) by (unfold stride; lia).
    apply (for_range_invariant
             (fun z m => sized (14 * z * (width + 1)) 0 m /\
                         indices_below ((width + 1) * (depth + 1)) m));
      [lia| |].
    + split; [split; reflexivity | constructor].
    + intros z acc Hz Hacc.
      replace (14 * (z + 1) * (width + 1))
        with (14 * z * (width + 1) + 14 * (width + 1)) by lia.
      apply (for_range_invariant
               (fun x m => sized (14 * z * (width + 1) + 14 * x) 0 m /\
                           indices_below ((width + 1) * (depth + 1)) m));
        [lia| |].
      * replace (14 * z * (width + 1) + 14 * 0) with (14 * z * (width + 1)) by lia.
        exact Hacc.
      * intros x acc' Hx [[Hv Hn] Hb]. split; [|exact Hb].
        split; [|exact Hn].
        cbn [insert_end vertices]. rewrite !length_app. cbn [length]. lia.
  - intros z acc Hz Hacc.
    replace (6 * (z + 1) * width) with (6 * z * width + 6 * width) by lia.
    apply (for_range_invariant
             (fun x m => well_indexed ((width + 1) * (depth + 1))
                           (6 * z * width + 6 * x) m));
      [exact Hw| |].
    + replace (6 * z * width + 6 * 0) with (6 * z * width) by lia. exact Hacc.
    + intros x acc' Hx [[Hv Hn] Hb]. split.
      * split; [exact Hv|].
        cbn [push_back indices]. rewrite !length_app. cbn [length]. lia.
      * do 6 push_index_bits. exact Hb.
Qed.

End GridGenerators.

(** X1. For every size, [generateCube] returns a mesh of 24 vertices and
    36 indices (six faces of four vertices and two triangles), every
    index addresses a vertex, and the texture handle is the one given. *)
Theorem generateCube_counts {F : Type} `{FloatOps F} (size : F) (tex : Z) :
  exists m, generateCube size tex = Returned m /\
    Z.of_nat (length (vertices m)) = stride * 24 /\
    vertex_count m = 24 /\
    index_count m = 36 /\
    Forall (fun i => 0 <= i < vertex_count m) (indices m) /\
    texture m = tex.
Proof.
  eexists. split; [reflexivity|].
  split; [reflexivity|]. split; [reflexivity|]. split; [reflexivity|].
  split; [|reflexivity].
  change (vertex_count _) with 24.
  repeat constructor; lia.
Qed.

(** X2. The cube is flat shaded and axis aligned: the three vertices of
    every triangle carry one and the same normal, the six faces have the
    normals +Z, -Z, +Y, -Y, +X, -X, and every position coordinate of
    every vertex is [size / 2] or its negation. *)
Theorem generateCube_flat_faces {F : Type} `{FloatOps F} (size : F) (tex : Z) :
  exists m, generateCube size tex = Returned m /\
    Forall (fun tri : Z * Z * Z =>
              let '(a, b, c) := tri in
              exists n, attribute3 m a 3 = Some n /\
                        attribute3 m b 3 = Some n /\
                        attribute3 m c 3 = Some n)
           (triangles (indices m)) /\
    map (fun k => attribute3 m k 3) [0; 4; 8; 12; 16; 20]
    = [Some (of_int 0, of_int 0, of_int 1); Some (of_int 0, of_int 0, of_int (-1));
       Some (of_int 0, of_int 1, of_int 0); Some (of_int 0, of_int (-1), of_int 0);
       Some (of_int 1, of_int 0, of_int 0); Some (of_int (-1), of_int 0, of_int 0)] /\
    Forall (fun k =>
              Forall (fun off =>
                        attribute m k off = Some (fdiv size (of_int 2)) \/
                        attribute m k off = Some (fneg (fdiv size (of_int 2))))
                     [0; 1; 2])
           (map Z.of_nat (seq 0 24)).
Proof.
  eexists. split; [reflexivity|]. split; [|split].
  - cbn [triangles indices set_texture].
    repeat (apply Forall_cons; [eexists; split; [reflexivity|split; reflexivity]|]).
    apply Forall_nil.
  - reflexivity.
  - cbn [map seq Z.of_nat Pos.of_succ_nat Pos.succ].
    repeat (apply Forall_cons;
            [repeat (apply Forall_cons; [first [left; reflexivity | right; reflexivity]|]);
             apply Forall_nil|]).
    apply Forall_nil.
Qed.

(** X3. For non-negative slice and stack counts, [generateEllipsoid]
    returns a mesh of [(stacks + 1) * (slices + 1)] vertices of 14 floats
    (the seam column is duplicated) and [6 * stacks * slices] indices,
    every index is less than the vertex count, and the texture and
    normal-map handles are the ones given. *)
Theorem generateEllipsoid_counts {F : Type} `{FloatOps F} (cosf sinf : F -> F)
    (rx ry rz : F) (slices stacks tex normal : Z) :
  0 <= slices < INT_MAX ->
  0 <= stacks < INT_MAX ->
  exists m, generateEllipsoid cosf sinf rx ry rz slices stacks tex normal = Returned m /\
    Z.of_nat (length (vertices m)) = stride * ((stacks + 1) * (slices + 1)) /\
    vertex_count m = (stacks + 1) * (slices + 1) /\
    index_count m = 6 * stacks * slices /\
    Forall (fun i => i < vertex_count m) (indices m) /\
    texture m = tex /\ normalMap m = normal.
Proof.
  intros Hsl Hst.
  destruct (generateEllipsoid_shape cosf sinf rx ry rz slices stacks tex normal Hsl Hst)
    as (m & Hm & Hw & Htex & Hnormal).
  exists m. split; [exact Hm|].
  split; [exact (proj1 (proj1 Hw))|].
  destruct (well_indexed_counts _ _ _ Hw) as (Hn & Hk & Hb).
  auto.
Qed.

(** The balloon, [generateEllipsoid(5.0f, 3.0f, 3.0f, 32, 32, ...)]. *)
Lemma generateEllipsoid_counts_witness :
  exists m, generateEllipsoid Scenes.cos_taylor Scenes.sin_taylor
              (of_int 5) (of_int 3) (of_int 3) 32 32 7 8 = Returned m /\
    Z.of_nat (length (vertices m)) = stride * ((32 + 1) * (32 + 1)) /\
    vertex_count m = (32 + 1) * (32 + 1) /\
    index_count m = 6 * 32 * 32 /\
    Forall (fun i => i < vertex_count m) (indices m) /\
    texture m = 7 /\ normalMap m = 8.
Proof.
  apply generateEllipsoid_counts; unfold INT_MAX; lia.
Defined.

(** X4. For non-negative width and depth, [generateTerrain] returns a
    grid of [(width + 1) * (depth + 1)] vertices and
    [6 * width * depth] indices, and every index is less than the vertex
    count. *)
Theorem generateTerrain_counts {F : Type} `{FloatOps F} (width depth tex heightTex : Z) :
  0 <= width < INT_MAX ->
  0 <= depth < INT_MAX ->
  exists m, generateTerrain (F := F) width depth tex heightTex = Returned m /\
    Z.of_nat (length (vertices m)) = stride * ((width + 1) * (depth + 1)) /\
    vertex_count m = (width + 1) * (depth + 1) /\
    index_count m = 6 * width * depth /\
    Forall (fun i => i < vertex_count m) (indices m) /\
    texture m = tex.
Proof.
  intros Hw Hd.
  destruct (generateTerrain_shape (F := F) width depth tex heightTex Hw Hd)
    as (m & Hm & Hwi & Htex).
  exists m. split; [exact Hm|].
  split; [exact (proj1 (proj1 Hwi))|].
  destruct (well_indexed_counts _ _ _ Hwi) as (Hn & Hk & Hb).
  auto.
Qed.

(** The terrain of [main], [generateTerrain(100, 100, ...)]: 10201
    vertices and 60000 indices. *)
Lemma generateTerrain_counts_witness :
  exists m, generateTerrain (F := spec_float) 100 100 3 4 = Returned m /\
    Z.of_nat (length (vertices m)) = stride * ((100 + 1) * (100 + 1)) /\
    vertex_count m = (100 + 1) * (100 + 1) /\
    index_count m = 6 * 100 * 100 /\
    Forall (fun i => i < vertex_count m) (indices m) /\
    texture m = 3.
Proof.
  apply generateTerrain_counts; unfold INT_MAX; lia.
Defined.

(** ** Height field: what is sampled *)

Lemma getPixel_In (img : Image) (x y : Z) (c : Color) :
  getPixel img x y = Ok c -> In c (pixels img).
Proof.
  unfold getPixel.
  destruct ((x <? size_x img) && (y <? size_y img)); [|discriminate].
  destruct (nth_error (pixels img) (Z.to_nat (x + y * size_x img))) as [c0|] eqn:Hnth;
    [|discriminate].
  intros Hc. injection Hc as <-. exact (nth_error_In _ _ Hnth).
Qed.

Lemma getPixel_red_only (img img' : Image) (x y : Z) :
  size_x img = size_x img' -> size_y img = size_y img' ->
  map red (pixels img) = map red (pixels img') ->
  match getPixel img x y, getPixel img' x y with
  | Ok c, Ok c' => red c = red c'
  | OutOfBounds a b, OutOfBounds a' b' => a = a' /\ b = b'
  | _, _ => False
  end.
Proof.
  intros Hx Hy Hred. unfold getPixel. rewrite <- Hx, <- Hy.
  destruct ((x <? size_x img) && (y <? size_y img)); [|auto].
  pose proof (nth_error_map red (Z.to_nat (x + y * size_x img)) (pixels img)) as H1.
  pose proof (nth_error_map red (Z.to_nat (x + y * size_x img)) (pixels img')) as H2.
  rewrite Hred in H1. rewrite H1 in H2.
  destruct (nth_error (pixels img) _) as [c|], (nth_error (pixels img') _) as [c'|];
    cbn in H2; try discriminate H2; auto.
  injection H2 as H2. exact H2.
Qed.

(** X5. Over a loaded image every query succeeds without leaving the
    image, and the elevation it returns is either 0 (outside the
    footprint) or the red value of one of the image's pixels divided by
    255 and multiplied by the height scale. *)
Theorem getTerrainHeight_samples_a_pixel {F : Type} `{FloatOps F}
    (worldX worldZ : F) (heightMap : Image) (tScale hScale : F) :
  loaded heightMap ->
  exists h, getTerrainHeight worldX worldZ heightMap tScale hScale = Ok h /\
    (h = of_int 0 \/
     exists c, In c (pixels heightMap) /\
               h = fmul (fdiv (of_int (red c)) (of_int 255)) hScale).
Proof.
  intros Hl. unfold getTerrainHeight. cbv zeta.
  destruct (flt worldX _ || fgt worldX _ || flt worldZ _ || fgt worldZ _).
  - eexists. split; [reflexivity|]. left. reflexivity.
  - pose proof Hl as (Hx & Hy & Hlen).
    match goal with
    | |- context [getPixel heightMap ?x ?y] =>
        destruct (getPixel_loaded heightMap x y) as [c Hc]
    end.
    + exact Hl.
    + apply clamp_in_bounds; [assumption|]. apply to_unsigned_range.
    + apply clamp_in_bounds; [assumption|]. apply to_unsigned_range.
    + rewrite Hc. cbn [bind]. eexists. split; [reflexivity|].
      right. exists c. split; [exact (getPixel_In _ _ _ _ Hc) | reflexivity].
Qed.

Lemma getTerrainHeight_samples_a_pixel_witness :
  exists h : spec_float,
    getTerrainHeight (of_int 20) (of_int 20) Scenes.whiteMap (of_int 2) (of_int 10) = Ok h /\
    (h = of_int 0 \/
     exists c, In c (pixels Scenes.whiteMap) /\
               h = fmul (fdiv (of_int (red c)) (of_int 255)) (of_int 10)).
Proof.
  apply getTerrainHeight_samples_a_pixel. unfold loaded, UINT_MAX. cbn. lia.
Defined.

(** X6. Only the red channel of the height map is read: two images of
    the same size whose pixels agree on red give the same answer to
    every query, whatever their green, blue and alpha values. *)
Theorem getTerrainHeight_reads_red_only {F : Type} `{FloatOps F}
    (worldX worldZ : F) (img img' : Image) (tScale hScale : F) :
  size_x img = size_x img' ->
  size_y img = size_y img' ->
  map red (pixels img) = map red (pixels img') ->
  getTerrainHeight worldX worldZ img tScale hScale
  = getTerrainHeight worldX worldZ img' tScale hScale.
Proof.
  intros Hx Hy Hred. unfold getTerrainHeight. cbv zeta. rewrite <- Hx, <- Hy.
  destruct (flt worldX _ || fgt worldX _ || flt worldZ _ || fgt worldZ _); [reflexivity|].
  match goal with
  | |- context [getPixel img ?x ?y] =>
      pose proof (getPixel_red_only img img' x y Hx Hy Hred) as Hpix;
      destruct (getPixel img x y) as [c|a b], (getPixel img' x y) as [c'|a' b']
  end; cbn [bind].
  - rewrite Hpix. reflexivity.
  - destruct Hpix.
  - destruct Hpix.
  - destruct Hpix as [-> ->]. reflexivity.
Qed.

Lemma getTerrainHeight_reads_red_only_witness :
  getTerrainHeight (of_int 20) (of_int 20) Scenes.whiteMap (of_int 2) (of_int 10)
  = (getTerrainHeight (of_int 20) (of_int 20) (mkImage 1 1 [mkColor 255 0 7 0])
       (of_int 2) (of_int 10) : result spec_float).
Proof.
  apply getTerrainHeight_reads_red_only; reflexivity.
Defined.

(** X7. When the height-map file is missing, [main] does not reach its
    frame loop: the first terrain query of the scene set-up, for the
    tree at (20, 20), already reads pixel (4294967295, 4294967295)
    outside the empty image, whatever the input. *)
Theorem main_missing_heightmap (parcelMesh houseBody houseRoof : Mesh spec_float)
    (inputs : list (FrameInput spec_float)) :
  main Image_new parcelMesh houseBody houseRoof inputs = OutOfBounds UINT_MAX UINT_MAX.
Proof.
  unfold main, setupScene. cbv zeta. cbn [vec_x vec_z].
  assert (Htree : getTerrainHeight (of_int 20) (of_int 20) Image_new
                    terrainScale terrainHeightScale
                  = (OutOfBounds UINT_MAX UINT_MAX : result spec_float))
    by (vm_compute; reflexivity).
  rewrite Htree. reflexivity.
Qed.

(** ** The update block: what a tick can and cannot do *)

Section TickFrame.

Context {F : Type} `{FloatOps F}.

Lemma target_steps_refl (ts : list (Target F)) : Forall2 target_step ts ts.
Proof.
  induction ts as [|t ts IH]; constructor; [left; reflexivity | exact IH].
Qed.

Lemma target_step_trans (t t' t'' : Target F) :
  target_step t t' -> target_step t' t'' -> target_step t t''.
Proof.
  intros [-> | [Ha ->]] [-> | [Ha' ->]].
  - left. reflexivity.
  - right. auto.
  - right. auto.
  - cbn in Ha'. discriminate Ha'.
Qed.

Lemma target_steps_trans (ts ts' ts'' : list (Target F)) :
  Forall2 target_step ts ts' -> Forall2 target_step ts' ts'' ->
  Forall2 target_step ts ts''.
Proof.
  intros H1. revert ts''. induction H1 as [|t t' ts ts' Ht _ IH]; intros ts'' H2.
  - inversion H2. constructor.
  - inversion H2 as [|t0 t'' ts0 ts0'' Ht' Hrest]; subst.
    constructor; [eapply target_step_trans; eassumption | apply IH; assumption].
Qed.

Lemma hit_result_target_steps (p p' : Parcel F) (ts ts' : list (Target F)) (sc sc' : Z) :
  hit_result p ts sc (p', ts', sc') -> Forall2 target_step ts ts'.
Proof.
  intros Hres.
  destruct (hit_result_cases _ _ _ _ _ _ Hres)
    as [(_ & -> & _) | (before & t & after & -> & Ha & _ & _ & _ & -> & _)].
  - apply target_steps_refl.
  - apply Forall2_app; [apply target_steps_refl|].
    constructor; [right; auto | apply target_steps_refl].
Qed.

Variable heightMap : Image.

(** One parcel's update, case by case. *)
Lemma stepParcel_cases (dt : F) (p : Parcel F) (ts : list (Target F)) (sc : Z) :
  (p_active p = false /\ stepParcel dt heightMap p ts sc = (p, ts, sc)) \/
  (p_active p = true /\ landed heightMap (integrate dt p) = true /\
   stepParcel dt heightMap p ts sc = (p_set_active (integrate dt p) false, ts, sc)) \/
  (p_active p = true /\ landed heightMap (integrate dt p) = false /\
   stepParcel dt heightMap p ts sc = testTargets (integrate dt p) ts sc).
Proof.
  unfold stepParcel. cbv zeta.
  destruct (p_active p); cbn [negb]; [|left; auto].
  right. destruct (landed heightMap (integrate dt p)); [left | right]; auto.
Qed.

Lemma stepParcel_frame (dt : F) (p : Parcel F) (ts : list (Target F)) (sc : Z) :
  parcel_step dt p (fst (fst (stepParcel dt heightMap p ts sc))) /\
  Forall2 target_step ts (snd (fst (stepParcel dt heightMap p ts sc))) /\
  (count_inactive (snd (fst (stepParcel dt heightMap p ts sc)))
   + (if p_active (fst (fst (stepParcel dt heightMap p ts sc))) then 1 else 0)
   <= count_inactive ts + (if p_active p then 1 else 0))%nat.
Proof.
  destruct (stepParcel_cases dt p ts sc)
    as [(Hp & ->) | [(Hp & Hl & ->) | (Hp & Hl & ->)]]; cbn [fst snd].
  - split; [left; auto|]. split; [apply target_steps_refl|]. lia.
  - split; [right; auto|]. split; [apply target_steps_refl|].
    cbn [p_set_active p_active]. rewrite Hp. lia.
  - pose proof (testTargets_spec (integrate dt p) ts sc) as Hspec.
    destruct (testTargets (integrate dt p) ts sc) as [[p' ts'] sc'].
    cbn [fst snd]. split; [|split].
    + right. split; [exact Hp|].
      destruct (hit_result_cases _ _ _ _ _ _ Hspec)
        as [(-> & _) | (_ & _ & _ & _ & _ & _ & _ & -> & _)]; auto.
    + exact (hit_result_target_steps _ _ _ _ _ _ Hspec).
    + rewrite Hp.
      destruct (hit_result_cases _ _ _ _ _ _ Hspec)
        as [(-> & -> & _) | (before & t & after & -> & Ha & _ & _ & -> & -> & _)].
      * cbn [integrate p_set_position p_active]. rewrite Hp. lia.
      * rewrite (count_inactive_deactivate before after t Ha).
        cbn [p_set_active p_active]. lia.
Qed.

Lemma stepParcels_frame (dt : F) (ps : list (Parcel F)) (ts : list (Target F)) (sc : Z) :
  Forall2 (parcel_step dt) ps (fst (fst (stepParcels dt heightMap ps ts sc))) /\
  Forall2 target_step ts (snd (fst (stepParcels dt heightMap ps ts sc))) /\
  (count_inactive (snd (fst (stepParcels dt heightMap ps ts sc)))
   + count_active (fst (fst (stepParcels dt heightMap ps ts sc)))
   <= count_inactive ts + count_active ps)%nat.
Proof.
  revert ts sc. induction ps as [|p rest IH]; intros ts sc; cbn [stepParcels].
  - cbn [fst snd]. split; [constructor|]. split; [apply target_steps_refl|]. lia.
  - pose proof (stepParcel_frame dt p ts sc) as (Hp & Hts & Hcount).
    destruct (stepParcel dt heightMap p ts sc) as [[p' ts'] sc'].
    specialize (IH ts' sc'). destruct IH as (Hps & Hts' & Hcount').
    destruct (stepParcels dt heightMap rest ts' sc') as [[rest' ts''] sc''].
    cbn [fst snd] in *. split; [|split].
    + constructor; assumption.
    + eapply target_steps_trans; eassumption.
    + unfold count_active in *. cbn [filter].
      destruct (p_active p'), (p_active p); cbn [length] in *; lia.
Qed.

Lemma testTargets_inactive_targets (q : Parcel F) (ts : list (Target F)) (sc : Z) :
  Forall (fun t => t_active t = false) ts -> testTargets q ts sc = (q, ts, sc).
Proof.
  induction 1 as [|t rest Ht _ IH]; cbn [testTargets].
  - reflexivity.
  - rewrite Ht. cbn [negb]. rewrite IH. reflexivity.
Qed.

Lemma stepParcels_inactive_targets (dt : F) (ps : list (Parcel F)) (ts : list (Target F))
    (sc : Z) :
  Forall (fun t => t_active t = false) ts ->
  snd (fst (stepParcels dt heightMap ps ts sc)) = ts /\
  snd (stepParcels dt heightMap ps ts sc) = sc.
Proof.
  intros Hts. revert sc. induction ps as [|p rest IH]; intros sc; cbn [stepParcels].
  - auto.
  - assert (Hfirst : exists p', stepParcel dt heightMap p ts sc = (p', ts, sc)).
    { destruct (stepParcel_cases dt p ts sc)
        as [(_ & ->) | [(_ & _ & ->) | (_ & _ & ->)]]; eauto.
      rewrite testTargets_inactive_targets by exact Hts. eauto. }
    destruct Hfirst as (p' & ->). specialize (IH sc).
    destruct (stepParcels dt heightMap rest ts sc) as [[rest' ts''] sc''].
    cbn [fst snd] in *. exact IH.
Qed.

End TickFrame.

(** X8. A tick changes a target in one way only: a target that was
    active may come out deactivated.  Every other target comes out
    identical, so targets are never added, removed, reordered, moved,
    resized or reactivated. *)
Theorem tick_only_deactivates_targets {F : Type} `{FloatOps F} (heightMap : Image) (dt : F)
    (ps : list (Parcel F)) (ts : list (Target F)) (sc : Z) :
  loaded heightMap ->
  exists ps' ts' sc',
    updateParcels dt heightMap ps ts sc = Ok (ps', ts', sc') /\
    Forall2 (fun t t' => t' = t \/ (t_active t = true /\ t' = t_set_active t false)) ts ts'.
Proof.
  intros Hl. rewrite (updateParcels_loaded heightMap Hl).
  pose proof (stepParcels_frame heightMap dt ps ts sc) as (_ & Hts & _).
  destruct (stepParcels dt heightMap ps ts sc) as [[ps' ts'] sc'].
  exists ps', ts', sc'. split; [reflexivity | exact Hts].
Qed.

Lemma tick_only_deactivates_targets_witness :
  exists ps' ts' sc',
    updateParcels (Scenes.fl 1 10) Scenes.flatMap [Scenes.parcelLeft; Scenes.parcelMid]
      [Scenes.houseA; Scenes.houseB] 0 = Ok (ps', ts', sc') /\
    Forall2 (fun t t' => t' = t \/ (t_active t = true /\ t' = t_set_active t false))
      [Scenes.houseA; Scenes.houseB] ts'.
Proof.
  apply tick_only_deactivates_targets. unfold loaded, UINT_MAX. cbn. lia.
Defined.

(** X9. A tick of length [dt] leaves an inactive parcel as it is and
    moves an active one by exactly [velocity * dt], keeping it active or
    deactivating it at the new position; no parcel is added, removed,
    reordered or reactivated, and velocity, radius and mesh never
    change. *)
Theorem tick_moves_active_parcels {F : Type} `{FloatOps F} (heightMap : Image) (dt : F)
    (ps : list (Parcel F)) (ts : list (Target F)) (sc : Z) :
  loaded heightMap ->
  exists ps' ts' sc',
    updateParcels dt heightMap ps ts sc = Ok (ps', ts', sc') /\
    Forall2 (fun p p' =>
               (p_active p = false /\ p' = p) \/
               (p_active p = true /\
                (p' = integrate dt p \/ p' = p_set_active (integrate dt p) false)))
            ps ps' /\
    Forall2 (fun p p' =>
               p_velocity p' = p_velocity p /\ p_radius p' = p_radius p /\
               p_mesh p' = p_mesh p /\ (p_active p' = true -> p_active p = true))
            ps ps'.
Proof.
  intros Hl. rewrite (updateParcels_loaded heightMap Hl).
  pose proof (stepParcels_frame heightMap dt ps ts sc) as (Hps & _ & _).
  destruct (stepParcels dt heightMap ps ts sc) as [[ps' ts'] sc'].
  exists ps', ts', sc'. cbn [fst] in Hps.
  split; [reflexivity|]. split; [exact Hps|].
  eapply Forall2_impl; [|exact Hps].
  intros p p' [[Hp ->] | [Hp [-> | ->]]]; cbn; auto.
Qed.

Lemma tick_moves_active_parcels_witness :
  exists ps' ts' sc',
    updateParcels (Scenes.fl 1 10) Scenes.flatMap [Scenes.parcelLeft; Scenes.parcelMid]
      [Scenes.houseA; Scenes.houseB] 0 = Ok (ps', ts', sc') /\
    Forall2 (fun p p' =>
               (p_active p = false /\ p' = p) \/
               (p_active p = true /\
                (p' = integrate (Scenes.fl 1 10) p \/
                 p' = p_set_active (integrate (Scenes.fl 1 10) p) false)))
            [Scenes.parcelLeft; Scenes.parcelMid] ps' /\
    Forall2 (fun p p' =>
               p_velocity p' = p_velocity p /\ p_radius p' = p_radius p /\
               p_mesh p' = p_mesh p /\ (p_active p' = true -> p_active p = true))
            [Scenes.parcelLeft; Scenes.parcelMid] ps'.
Proof.
  apply tick_moves_active_parcels. unfold loaded, UINT_MAX. cbn. lia.
Defined.

(** X10. Every hit uses up a parcel: over a tick, the number of targets
    newly destroyed is at most the number of parcels that stopped
    falling, so the score rises by at most the number of parcels that
    were active when the tick began. *)
Theorem tick_hits_bounded_by_parcels {F : Type} `{FloatOps F} (heightMap : Image) (dt : F)
    (ps : list (Parcel F)) (ts : list (Target F)) (sc : Z) :
  loaded heightMap ->
  exists ps' ts' sc',
    updateParcels dt heightMap ps ts sc = Ok (ps', ts', sc') /\
    (count_inactive ts <= count_inactive ts')%nat /\
    (count_inactive ts' - count_inactive ts <= count_active ps - count_active ps')%nat /\
    (count_active ps' <= count_active ps)%nat /\
    sc' = Nat.iter (count_inactive ts' - count_inactive ts) int_incr sc.
Proof.
  intros Hl. rewrite (updateParcels_loaded heightMap Hl).
  pose proof (stepParcels_frame heightMap dt ps ts sc) as (Hps & _ & Hcount).
  pose proof (stepParcels_scored heightMap dt ps ts sc) as (Hle & Hsc & _).
  destruct (stepParcels dt heightMap ps ts sc) as [[ps' ts'] sc'].
  exists ps', ts', sc'. cbn [fst snd] in *.
  split; [reflexivity|]. split; [exact Hle|].
  assert (Hless : (count_active ps' <= count_active ps)%nat).
  { clear Hcount Hle Hsc. unfold count_active.
    induction Hps as [|p p' l l' Hp _ IH]; cbn [filter]; [lia|].
    destruct Hp as [[Hp ->] | [Hp [-> | ->]]]; cbn [integrate p_set_position p_set_active p_active];
      rewrite ?Hp; cbn [length]; lia. }
  split; [lia|]. split; [exact Hless | exact Hsc].
Qed.

Lemma tick_hits_bounded_by_parcels_witness :
  exists ps' ts' sc',
    updateParcels (Scenes.fl 1 10) Scenes.flatMap [Scenes.parcelLeft; Scenes.parcelMid]
      [Scenes.houseA; Scenes.houseB] 0 = Ok (ps', ts', sc') /\
    (count_inactive [Scenes.houseA; Scenes.houseB] <= count_inactive ts')%nat /\
    (count_inactive ts' - count_inactive [Scenes.houseA; Scenes.houseB]
     <= count_active [Scenes.parcelLeft; Scenes.parcelMid] - count_active ps')%nat /\
    (count_active ps' <= count_active [Scenes.parcelLeft; Scenes.parcelMid])%nat /\
    sc' = Nat.iter (count_inactive ts' - count_inactive [Scenes.houseA; Scenes.houseB])
            int_incr 0.
Proof.
  apply tick_hits_bounded_by_parcels. unfold loaded, UINT_MAX. cbn. lia.
Defined.

(** X11. With no active parcel the update block changes nothing and
    never queries the height map: it succeeds with the same parcels,
    targets and score on any image, even the empty image of a failed
    load. *)
Theorem tick_without_active_parcels {F : Type} `{FloatOps F} (heightMap : Image) (dt : F)
    (ps : list (Parcel F)) (ts : list (Target F)) (sc : Z) :
  Forall (fun p => p_active p = false) ps ->
  updateParcels dt heightMap ps ts sc = Ok (ps, ts, sc).
Proof.
  induction 1 as [|p rest Hp _ IH]; cbn [updateParcels].
  - reflexivity.
  - unfold updateParcel. rewrite Hp. cbn [negb bind]. rewrite IH. reflexivity.
Qed.

Lemma tick_without_active_parcels_witness :
  updateParcels (Scenes.fl 1 10) Image_new
    [p_set_active Scenes.parcelLeft false; p_set_active Scenes.parcelMid false]
    [Scenes.houseA; Scenes.houseB] 1
  = Ok ([p_set_active Scenes.parcelLeft false; p_set_active Scenes.parcelMid false],
        [Scenes.houseA; Scenes.houseB], 1).
Proof.
  apply tick_without_active_parcels. repeat constructor.
Defined.

(** X12. An active parcel that is above ground after integration stops
    in that tick exactly when some active target is within hit range of
    its new position; then the score is incremented once and one more
    target is destroyed, and otherwise parcel, targets and score come out
    of the test unchanged. *)
Theorem parcel_hit_iff_active_target_in_range {F : Type} `{FloatOps F} (heightMap : Image)
    (dt : F) (p : Parcel F) (ts : list (Target F)) (sc : Z) (h : F) :
  p_active p = true ->
  getTerrainHeight (vec_x (p_position (integrate dt p))) (vec_z (p_position (integrate dt p)))
    heightMap terrainScale terrainHeightScale = Ok h ->
  fle (vec_y (p_position (integrate dt p))) h = false ->
  exists p' ts' sc',
    updateParcel dt heightMap p ts sc = Ok (p', ts', sc') /\
    (p_active p' = false <->
     exists t, In t ts /\ t_active t = true /\ in_range (integrate dt p) t = true) /\
    (p_active p' = false ->
     p' = p_set_active (integrate dt p) false /\ sc' = int_incr sc /\
     count_inactive ts' = S (count_inactive ts)) /\
    (p_active p' = true -> p' = integrate dt p /\ ts' = ts /\ sc' = sc).
Proof.
  intros Hp Hh Habove. unfold updateParcel. rewrite Hp. cbn [negb]. cbv zeta.
  rewrite Hh. cbn [bind]. rewrite Habove.
  pose proof (testTargets_spec (integrate dt p) ts sc) as Hspec.
  destruct (testTargets (integrate dt p) ts sc) as [[p' ts'] sc'].
  exists p', ts', sc'. split; [reflexivity|].
  destruct (hit_result_cases _ _ _ _ _ _ Hspec)
    as [(-> & -> & -> & Hnone) | (before & t & after & -> & Ha & Hr & _ & -> & -> & ->)].
  - assert (Hq : p_active (integrate dt p) = true) by exact Hp.
    split; [|split].
    + split; [congruence|].
      intros (t & Hin & Ha & Hr). rewrite (Hnone t Hin Ha) in Hr. discriminate Hr.
    + congruence.
    + auto.
  - split; [|split].
    + split; [|reflexivity]. intros _. exists t.
      split; [apply in_or_app; right; left; reflexivity | auto].
    + intros _. split; [reflexivity|]. split; [reflexivity|].
      apply count_inactive_deactivate. exact Ha.
    + cbn. discriminate.
Qed.

Lemma parcel_hit_iff_active_target_in_range_witness :
  exists p' ts' sc',
    updateParcel (Scenes.fl 1 10) Scenes.flatMap Scenes.parcelLeft
      [Scenes.houseA; Scenes.houseB] 0 = Ok (p', ts', sc') /\
    (p_active p' = false <->
     exists t, In t [Scenes.houseA; Scenes.houseB] /\ t_active t = true /\
               in_range (integrate (Scenes.fl 1 10) Scenes.parcelLeft) t = true) /\
    (p_active p' = false ->
     p' = p_set_active (integrate (Scenes.fl 1 10) Scenes.parcelLeft) false /\
     sc' = int_incr 0 /\
     count_inactive ts' = S (count_inactive [Scenes.houseA; Scenes.houseB])) /\
    (p_active p' = true ->
     p' = integrate (Scenes.fl 1 10) Scenes.parcelLeft /\
     ts' = [Scenes.houseA; Scenes.houseB] /\ sc' = 0).
Proof.
  apply (parcel_hit_iff_active_target_in_range Scenes.flatMap (Scenes.fl 1 10)
           Scenes.parcelLeft [Scenes.houseA; Scenes.houseB] 0 (of_int 0)).
  - reflexivity.
  - vm_compute. reflexivity.
  - vm_compute. reflexivity.
Defined.

(** X13. Once every target is destroyed, a tick can no longer change
    the targets or the score; parcels only go on falling and landing. *)
Theorem tick_after_all_targets_destroyed {F : Type} `{FloatOps F} (heightMap : Image)
    (dt : F) (ps : list (Parcel F)) (ts : list (Target F)) (sc : Z) :
  loaded heightMap ->
  Forall (fun t => t_active t = false) ts ->
  exists ps', updateParcels dt heightMap ps ts sc = Ok (ps', ts, sc).
Proof.
  intros Hl Hts. rewrite (updateParcels_loaded heightMap Hl).
  pose proof (stepParcels_inactive_targets heightMap dt ps ts sc Hts) as [Hsame Hsc].
  destruct (stepParcels dt heightMap ps ts sc) as [[ps' ts'] sc'].
  cbn [fst snd] in *. subst. eexists. reflexivity.
Qed.

Lemma tick_after_all_targets_destroyed_witness :
  exists ps',
    updateParcels (Scenes.fl 1 10) Scenes.flatMap [Scenes.parcelLeft; Scenes.parcelMid]
      [t_set_active Scenes.houseA false; t_set_active Scenes.houseB false] 2
    = Ok (ps', [t_set_active Scenes.houseA false; t_set_active Scenes.houseB false], 2).
Proof.
  apply tick_after_all_targets_destroyed.
  - unfold loaded, UINT_MAX. cbn. lia.
  - repeat constructor.
Defined.

(** ** The frame loop: events, window, and what stays fixed *)

Lemma Forall2_preserves {A : Type} (R : A -> A -> Prop) (P : A -> Prop) (l l' : list A) :
  (forall a a', R a a' -> P a -> P a') ->
  Forall2 R l l' -> Forall P l -> Forall P l'.
Proof.
  intros HR H2. induction H2 as [|a a' l l' Ha _ IH]; intros HP.
  - constructor.
  - inversion HP; subst. constructor; [eapply HR; eassumption | auto].
Qed.

Section FrameLoop.

Context {F : Type} `{FloatOps F}.
Variable heightMap : Image.
Variables parcelMesh houseBody houseRoof : Mesh F.

Lemma handleEvents_world (evs : list Event) (w : World F) :
  fold_left (handleEvent parcelMesh) evs w
  = mkWorld (isOpen w && negb (existsb is_close evs)) (airshipPos w) (treePos w)
            (targets w)
            (parcels w ++ repeat (spawned parcelMesh (airshipPos w)) (length (filter is_spawn evs)))
            (aimMode (fold_left (handleEvent parcelMesh) evs w)) (score w).
Proof.
  revert w. induction evs as [|e rest IH]; intros w; cbn [fold_left].
  - cbn. rewrite andb_true_r, app_nil_r. destruct w; reflexivity.
  - rewrite IH. destruct e as [|[]|]; cbn [handleEvent isOpen airshipPos treePos targets
      parcels score existsb is_close is_spawn filter length repeat negb orb andb];
      rewrite ?andb_false_r, <- ?app_assoc; reflexivity.
Qed.

Lemma target_step_house (t t' : Target F) :
  target_step t t' ->
  t_position t' = t_position t /\ (house houseBody houseRoof t -> house houseBody houseRoof t').
Proof.
  intros [-> | [_ ->]]; split; auto.
Qed.

Lemma parcel_step_dropped (dt : F) (p p' : Parcel F) :
  parcel_step dt p p' -> dropped parcelMesh p -> dropped parcelMesh p'.
Proof.
  intros [[_ ->] | [_ [-> | ->]]]; auto.
Qed.

Lemma target_steps_positions (ts ts' : list (Target F)) :
  Forall2 target_step ts ts' -> map t_position ts' = map t_position ts.
Proof.
  induction 1 as [|t t' ts ts' Ht _ IH]; cbn [map]; [reflexivity|].
  rewrite IH. destruct (target_step_house t t' Ht) as [-> _]. reflexivity.
Qed.

Hypothesis Hloaded : loaded heightMap.

Lemma frame_loaded (inp : FrameInput F) (w : World F) :
  exists w', frame heightMap parcelMesh inp w = Ok w' /\
    isOpen w' = isOpen w && negb (existsb is_close (events inp)) /\
    treePos w' = treePos w /\
    Forall2 target_step (targets w) (targets w') /\
    Forall2 (parcel_step (elapsed inp))
      (parcels w ++ repeat (spawned parcelMesh (airshipPos w)) (length (filter is_spawn (events inp))))
      (parcels w').
Proof.
  unfold frame. cbv zeta. rewrite handleEvents_world.
  cbn [isOpen airshipPos treePos targets parcels score aimMode].
  rewrite (updateParcels_loaded heightMap Hloaded).
  match goal with
  | |- context [stepParcels ?dt heightMap ?ps ?ts ?sc] =>
      pose proof (stepParcels_frame heightMap dt ps ts sc) as (Hps & Hts & _);
      destruct (stepParcels dt heightMap ps ts sc) as [[ps' ts'] sc']
  end.
  cbn [bind fst snd] in *. eexists. split; [reflexivity|].
  cbn [isOpen treePos targets parcels]. auto.
Qed.

Lemma frame_keeps_scene (w0 : World F) (inp : FrameInput F) (w : World F) :
  scene_kept parcelMesh houseBody houseRoof w0 w ->
  exists w', frame heightMap parcelMesh inp w = Ok w' /\ scene_kept parcelMesh houseBody houseRoof w0 w'.
Proof.
  intros (Hps & Hts & Hpos & Htree).
  destruct (frame_loaded inp w) as (w' & Hframe & _ & Htree' & Hts' & Hps').
  exists w'. split; [exact Hframe|]. split; [|split; [|split]].
  - eapply Forall2_preserves; [apply parcel_step_dropped | exact Hps' |].
    apply Forall_app. split; [exact Hps|].
    apply Forall_forall. intros p Hin. apply repeat_spec in Hin. subst p.
    repeat split.
  - eapply Forall2_preserves; [|exact Hts' | exact Hts].
    intros t t' Ht. exact (proj2 (target_step_house t t' Ht)).
  - rewrite (target_steps_positions _ _ Hts'). exact Hpos.
  - congruence.
Qed.

Lemma mainLoop_keeps_scene (w0 : World F) (inputs : list (FrameInput F)) (w : World F) :
  scene_kept parcelMesh houseBody houseRoof w0 w ->
  exists w', mainLoop heightMap parcelMesh inputs w = Ok w' /\ scene_kept parcelMesh houseBody houseRoof w0 w'.
Proof.
  revert w. induction inputs as [|inp rest IH]; intros w Hkept; cbn [mainLoop].
  - exists w. auto.
  - destruct (isOpen w).
    + destruct (frame_keeps_scene w0 inp w Hkept) as (w1 & -> & Hkept1). cbn [bind].
      apply IH. exact Hkept1.
    + exists w. auto.
Qed.

Lemma addTarget_house (i : Z) (ts : list (Target F)) :
  exists t, addTarget heightMap houseBody houseRoof i ts = Ok (ts ++ [t]) /\
            house houseBody houseRoof t.
Proof.
  unfold addTarget. cbv zeta.
  match goal with
  | |- context [getTerrainHeight ?x ?z _ _ _] =>
      destruct (getTerrainHeight_loaded x z heightMap terrainScale terrainHeightScale
                  Hloaded) as [ty Hty]
  end.
  rewrite Hty. cbn [bind]. eexists. split; [reflexivity|]. repeat split.
Qed.

Lemma setupScene_kept :
  exists w0, setupScene heightMap houseBody houseRoof = Ok w0 /\ scene_kept parcelMesh houseBody houseRoof w0 w0.
Proof.
  unfold setupScene. cbv zeta.
  match goal with
  | |- context [getTerrainHeight ?x ?z _ _ _] =>
      destruct (getTerrainHeight_loaded x z heightMap terrainScale terrainHeightScale
                  Hloaded) as [ty Hty]
  end.
  cbn [vec_x vec_z] in *. rewrite Hty. cbn [bind].
  unfold setupTargets. cbn [seq fold_left bind].
  destruct (addTarget_house (Z.of_nat 0) []) as (t0 & -> & H0). cbn [bind app].
  destruct (addTarget_house (Z.of_nat 1) [t0]) as (t1 & -> & H1). cbn [bind app].
  destruct (addTarget_house (Z.of_nat 2) [t0; t1]) as (t2 & -> & H2). cbn [bind app].
  destruct (addTarget_house (Z.of_nat 3) [t0; t1; t2]) as (t3 & -> & H3). cbn [bind app].
  destruct (addTarget_house (Z.of_nat 4) [t0; t1; t2; t3]) as (t4 & -> & H4). cbn [bind app].
  eexists. split; [reflexivity|].
  unfold scene_kept. cbn [parcels targets treePos].
  split; [constructor|].
  split; [repeat (apply Forall_cons; [assumption|]); apply Forall_nil|]. auto.
Qed.

End FrameLoop.

(** X14. A frame appends one parcel per P key press, created 4 units
    below the airship position the frame started with, and ticks every
    parcel, the new ones included, in the same frame: the parcel list
    grows by the number of presses and nothing is ever removed from
    it. *)
Theorem frame_drops_and_ticks_parcels {F : Type} `{FloatOps F} (heightMap : Image)
    (parcelMesh : Mesh F) (inp : FrameInput F) (w : World F) :
  loaded heightMap ->
  exists w', frame heightMap parcelMesh inp w = Ok w' /\
    length (parcels w')
    = (length (parcels w) + length (filter is_spawn (events inp)))%nat /\
    Forall2 (parcel_step (elapsed inp))
      (parcels w ++ repeat (spawned parcelMesh (airshipPos w))
                           (length (filter is_spawn (events inp))))
      (parcels w').
Proof.
  intros Hl.
  destruct (frame_loaded heightMap parcelMesh Hl inp w) as (w' & Hframe & _ & _ & _ & Hps).
  exists w'. split; [exact Hframe|]. split; [|exact Hps].
  rewrite <- (Forall2_length Hps), length_app, repeat_length. reflexivity.
Qed.

Lemma frame_drops_and_ticks_parcels_witness :
  exists w', frame Scenes.flatMap Scenes.noMesh
               (mkFrameInput [KeyPressed KeyP; OtherEvent; KeyPressed KeyP]
                  (Scenes.fl 1 10) (fun _ => false))
               (mkWorld true (Scenes.v3 0 30 0) (Scenes.v3 20 0 20) Scenes.mainTargets
                  [Scenes.parcelLow] false 0) = Ok w' /\
    length (parcels w') = (1 + 2)%nat /\
    Forall2 (parcel_step (Scenes.fl 1 10))
      ([Scenes.parcelLow] ++ repeat (spawned Scenes.noMesh (Scenes.v3 0 30 0)) 2)
      (parcels w').
Proof.
  apply (frame_drops_and_ticks_parcels Scenes.flatMap Scenes.noMesh
           (mkFrameInput [KeyPressed KeyP; OtherEvent; KeyPressed KeyP]
              (Scenes.fl 1 10) (fun _ => false))
           (mkWorld true (Scenes.v3 0 30 0) (Scenes.v3 20 0 20) Scenes.mainTargets
              [Scenes.parcelLow] false 0)).
  unfold loaded, UINT_MAX. cbn. lia.
Defined.

(** X15. A close event does not cut its frame short: the frame in which
    the window is closed still handles its other events, moves the
    airship and ticks the parcels; it leaves the window closed, and no
    later frame runs. *)
Theorem window_close_ends_loop {F : Type} `{FloatOps F} (heightMap : Image)
    (parcelMesh : Mesh F) (inp : FrameInput F) (rest : list (FrameInput F)) (w : World F) :
  isOpen w = true ->
  existsb is_close (events inp) = true ->
  mainLoop heightMap parcelMesh (inp :: rest) w = frame heightMap parcelMesh inp w /\
  forall w', frame heightMap parcelMesh inp w = Ok w' -> isOpen w' = false.
Proof.
  intros Hopen Hclose.
  assert (Hclosed : forall w', frame heightMap parcelMesh inp w = Ok w' -> isOpen w' = false).
  { unfold frame. cbv zeta. rewrite handleEvents_world.
    cbn [isOpen airshipPos treePos targets parcels score aimMode].
    rewrite Hclose, Hopen. cbn [negb andb].
    destruct (updateParcels _ _ _ _ _) as [[[ps ts] sc]|x y]; cbn [bind]; [|discriminate].
    intros w' Hw'. injection Hw' as <-. reflexivity. }
  split; [|exact Hclosed].
  cbn [mainLoop]. rewrite Hopen.
  destruct (frame heightMap parcelMesh inp w) as [w'|x y]; cbn [bind]; [|reflexivity].
  specialize (Hclosed w' eq_refl).
  destruct rest as [|inp' rest']; cbn [mainLoop]; [reflexivity|].
  rewrite Hclosed. reflexivity.
Qed.

Lemma window_close_ends_loop_witness :
  mainLoop Scenes.flatMap Scenes.noMesh
    [mkFrameInput [KeyPressed KeyP; Closed] (Scenes.fl 1 10) (fun _ => false);
     mkFrameInput [KeyPressed KeyP] (Scenes.fl 1 10) (fun _ => false)]
    (mkWorld true (Scenes.v3 0 30 0) (Scenes.v3 20 0 20) Scenes.mainTargets [] false 0)
  = frame Scenes.flatMap Scenes.noMesh
      (mkFrameInput [KeyPressed KeyP; Closed] (Scenes.fl 1 10) (fun _ => false))
      (mkWorld true (Scenes.v3 0 30 0) (Scenes.v3 20 0 20) Scenes.mainTargets [] false 0) /\
  forall w',
    frame Scenes.flatMap Scenes.noMesh
      (mkFrameInput [KeyPressed KeyP; Closed] (Scenes.fl 1 10) (fun _ => false))
      (mkWorld true (Scenes.v3 0 30 0) (Scenes.v3 20 0 20) Scenes.mainTargets [] false 0)
    = Ok w' -> isOpen w' = false.
Proof.
  apply window_close_ends_loop; reflexivity.
Defined.

(** X16. Every parcel that ever exists in a run of [main] over a loaded
    height map falls with the gravity velocity (0, -9.8, 0), has radius
    0.5 and carries the parcel mesh: nothing in the loop changes a
    parcel's velocity, radius or mesh after the drop. *)
Theorem parcels_stay_as_dropped {F : Type} `{FloatOps F} (heightMap : Image)
    (parcelMesh houseBody houseRoof : Mesh F) :
  loaded heightMap ->
  exists w0, setupScene heightMap houseBody houseRoof = Ok w0 /\
    forall inputs, exists w,
      mainLoop heightMap parcelMesh inputs w0 = Ok w /\
      Forall (fun p => p_velocity p = gravity /\ p_radius p = flit 1 2 /\
                       p_mesh p = parcelMesh) (parcels w).
Proof.
  intros Hl.
  destruct (setupScene_kept heightMap parcelMesh houseBody houseRoof Hl)
    as (w0 & Hsetup & Hkept).
  exists w0. split; [exact Hsetup|]. intros inputs.
  destruct (mainLoop_keeps_scene heightMap parcelMesh houseBody houseRoof Hl w0 inputs w0 Hkept)
    as (w & Hrun & Hps & _).
  exists w. split; [exact Hrun | exact Hps].
Qed.

Lemma parcels_stay_as_dropped_witness :
  exists w0, setupScene Scenes.flatMap Scenes.noMesh Scenes.noMesh = Ok w0 /\
    forall inputs, exists w,
      mainLoop Scenes.flatMap Scenes.noMesh inputs w0 = Ok w /\
      Forall (fun p => p_velocity p = gravity /\ p_radius p = flit 1 2 /\
                       p_mesh p = Scenes.noMesh) (parcels w).
Proof.
  apply (parcels_stay_as_dropped Scenes.flatMap Scenes.noMesh Scenes.noMesh Scenes.noMesh).
  unfold loaded, UINT_MAX. cbn. lia.
Defined.

(** X17. The scene of [main] is static: through any run over a loaded
    height map the five targets keep the positions the set-up gave them,
    their radius 2.5 and their body and roof meshes, and the tree keeps
    its position; only the [active] flags of the targets change. *)
Theorem targets_stay_in_place {F : Type} `{FloatOps F} (heightMap : Image)
    (parcelMesh houseBody houseRoof : Mesh F) :
  loaded heightMap ->
  exists w0, setupScene heightMap houseBody houseRoof = Ok w0 /\
    length (targets w0) = 5%nat /\
    forall inputs, exists w,
      mainLoop heightMap parcelMesh inputs w0 = Ok w /\
      map t_position (targets w) = map t_position (targets w0) /\
      Forall (fun t => t_radius t = flit 5 2 /\ t_body t = houseBody /\
                       t_roof t = houseRoof) (targets w) /\
      treePos w = treePos w0.
Proof.
  intros Hl.
  destruct (setupScene_kept heightMap parcelMesh houseBody houseRoof Hl)
    as (w0 & Hsetup & Hkept).
  destruct (setupScene_loaded heightMap Hl houseBody houseRoof)
    as (w0' & Hsetup' & _ & _ & Hlen & _).
  rewrite Hsetup in Hsetup'. injection Hsetup' as <-.
  exists w0. split; [exact Hsetup|]. split; [exact Hlen|]. intros inputs.
  destruct (mainLoop_keeps_scene heightMap parcelMesh houseBody houseRoof Hl w0 inputs w0 Hkept)
    as (w & Hrun & _ & Hts & Hpos & Htree).
  exists w. auto.
Qed.

Lemma targets_stay_in_place_witness :
  exists w0, setupScene Scenes.flatMap Scenes.noMesh Scenes.noMesh = Ok w0 /\
    length (targets w0) = 5%nat /\
    forall inputs, exists w,
      mainLoop Scenes.flatMap Scenes.noMesh inputs w0 = Ok w /\
      map t_position (targets w) = map t_position (targets w0) /\
      Forall (fun t => t_radius t = flit 5 2 /\ t_body t = Scenes.noMesh /\
                       t_roof t = Scenes.noMesh) (targets w) /\
      treePos w = treePos w0.
Proof.
  apply (targets_stay_in_place Scenes.flatMap Scenes.noMesh Scenes.noMesh Scenes.noMesh).
  unfold loaded, UINT_MAX. cbn. lia.
Defined.

(** ** Cone and cylinder: the index buffer and the vertex layout *)

Lemma range_succ (i : Z) : 0 <= i -> range (i + 1) = range i ++ [i].
Proof.
  intros Hi. unfold range.
  replace (Z.to_nat (i + 1)) with (S (Z.to_nat i)) by lia.
  rewrite seq_S, map_app. cbn [map Nat.add]. rewrite Z2Nat.id by exact Hi. reflexivity.
Qed.

Lemma flat_map_range_succ {A : Type} (f : Z -> list A) (i : Z) :
  0 <= i -> flat_map f (range (i + 1)) = flat_map f (range i) ++ f i.
Proof.
  intros Hi. rewrite range_succ by exact Hi.
  rewrite flat_map_app. cbn [flat_map]. rewrite app_nil_r. reflexivity.
Qed.

Lemma nth_error_range (n : Z) (k : nat) :
  (k < Z.to_nat n)%nat -> nth_error (range n) k = Some (Z.of_nat k).
Proof.
  intros Hk. unfold range. rewrite nth_error_map, nth_error_seq.
  destruct (Nat.ltb_spec k (Z.to_nat n)); [reflexivity | lia].
Qed.

Lemma nth_error_flat_map_uniform {A B : Type} (f : A -> list B) (b : nat) (l : list A)
    (k off : nat) :
  (forall a, length (f a) = b) -> (off < b)%nat ->
  nth_error (flat_map f l) (b * k + off)
  = match nth_error l k with
    | Some a => nth_error (f a) off
    | None => None
    end.
Proof.
  intros Hlen Hoff. revert k. induction l as [|a l IH]; intros k; cbn [flat_map].
  - destruct k; destruct (b * _ + off)%nat; reflexivity.
  - destruct k as [|k]; cbn [nth_error].
    + rewrite Nat.mul_0_r, Nat.add_0_l. apply nth_error_app1. rewrite Hlen. exact Hoff.
    + rewrite nth_error_app2 by (rewrite Hlen; nia).
      rewrite Hlen. replace (b * S k + off - b)%nat with (b * k + off)%nat by nia.
      apply IH.
Qed.

(** An index that fits [unsigned int] is stored as it is. *)
Lemma to_unsigned_exact (k e : Z) :
  same_bits k e -> 0 <= e <= UINT_MAX -> to_unsigned k = e.
Proof.
  unfold same_bits. intros -> He. unfold to_unsigned, modulus, UINT_MAX in *.
  apply Z.mod_small. lia.
Qed.

Lemma next_segment_eq (i segments : Z) :
  0 <= i < segments -> segments <= INT_MAX ->
  int_rem (int_add i 1) segments = (i + 1) mod segments.
Proof.
  intros Hi Hs. unfold int_rem, int_add.
  rewrite wrap_int_small by (unfold in_int, INT_MIN, INT_MAX in *; lia).
  apply Z.rem_mod_nonneg; lia.
Qed.

Lemma to_unsigned_exact_eq (k e e' : Z) :
  same_bits k e -> e = e' -> 0 <= e' <= UINT_MAX -> to_unsigned k = e'.
Proof. intros Hk <- He. apply to_unsigned_exact; assumption. Qed.

Ltac exact_index :=
  eapply to_unsigned_exact_eq;
  [ bits | lia | unfold UINT_MAX, INT_MAX in *; lia ].

Section Layout.

Context {F : Type} `{FloatOps F}.
Variables cosf sinf : F -> F.

(** X18. The index buffer of a cone is exactly two closed triangle
    fans of [segments] triangles each: the base fan around vertex 0,
    then the side fan around the apex, vertex 1; the last triangle of
    each fan returns to the first rim vertex, and every index is stored
    without overflow. *)
Theorem generateCone_indices (radius height : F) (segments tex : Z) :
  0 <= segments <= INT_MAX ->
  exists m, generateCone cosf sinf radius height segments tex = Returned m /\
    indices m = flat_map (cone_base_triangle segments) (range segments)
                ++ flat_map (cone_side_triangle segments) (range segments).
Proof.
  intros [Hlo Hhi]. unfold generateCone. cbv zeta.
  eexists. split; [reflexivity|].
  cbn [set_texture indices].
  apply (for_range_invariant
           (fun i m => indices m
                       = flat_map (cone_base_triangle segments) (range segments)
                         ++ flat_map (cone_side_triangle segments) (range i)));
    [exact Hlo| |].
  - cbn [range Z.to_nat seq map flat_map]. rewrite app_nil_r.
    apply (for_range_invariant
             (fun i m => indices m = flat_map (cone_base_triangle segments) (range i)));
      [exact Hlo| |].
    + apply (for_range_invariant (fun (i : Z) (m : Mesh F) => indices m = []));
        [exact Hlo|reflexivity|].
      intros i acc Hi Hacc. exact Hacc.
    + intros i acc Hi Hacc.
      pose proof (next_segment_range i segments Hi Hhi) as Hnext.
      rewrite flat_map_range_succ by lia.
      cbn [push_back indices]. rewrite Hacc, <- !app_assoc. cbn [app].
      unfold cone_base_triangle.
      rewrite <- (next_segment_eq i segments Hi Hhi).
      repeat f_equal; exact_index.
  - intros i acc Hi Hacc.
    pose proof (next_segment_range i segments Hi Hhi) as Hnext.
    rewrite flat_map_range_succ by lia.
    cbn [push_back indices]. rewrite Hacc, <- !app_assoc. cbn [app].
    unfold cone_side_triangle.
    rewrite <- (next_segment_eq i segments Hi Hhi).
    repeat f_equal; exact_index.
Qed.

Lemma generateCylinder_layout (radius height : F) (segments tex : Z) :
  0 <= segments <= 1073741823 ->
  exists m, generateCylinder cosf sinf radius height segments tex = Returned m /\
    indices m = flat_map (cylinder_triangles segments) (range segments) /\
    vertices m
    = cylinder_centres height
      ++ flat_map (cylinder_block cosf sinf radius height segments) (range segments).
Proof.
  intros [Hlo Hhi]. unfold generateCylinder. cbv zeta.
  assert (Hint : segments <= INT_MAX) by (unfold INT_MAX; lia).
  eexists. split; [reflexivity|].
  cbn [set_texture indices vertices].
  apply (for_range_invariant
           (fun i m =>
              indices m = flat_map (cylinder_triangles segments) (range i) /\
              vertices m
              = cylinder_centres height
                ++ flat_map (cylinder_block cosf sinf radius height segments)
                            (range segments)));
    [exact Hlo| |].
  - cbn [range Z.to_nat seq map flat_map].
    apply (for_range_invariant
             (fun i m =>
                indices m = [] /\
                vertices m
                = cylinder_centres height
                  ++ flat_map (cylinder_block cosf sinf radius height segments)
                              (range i)));
      [exact Hlo| |].
    + split; [reflexivity|]. cbn [range Z.to_nat seq map flat_map].
      rewrite app_nil_r. reflexivity.
    + intros i acc Hi [Hidx Hv]. split; [exact Hidx|].
      rewrite flat_map_range_succ by lia.
      cbn [insert_end vertices]. rewrite Hv, <- !app_assoc. reflexivity.
  - intros i acc Hi [Hidx Hv]. split; [|exact Hv].
    pose proof (next_segment_range i segments Hi Hint) as Hnext.
    rewrite flat_map_range_succ by lia.
    cbn [push_back indices]. rewrite Hidx, <- !app_assoc. cbn [app].
    unfold cylinder_triangles. cbv zeta.
    rewrite <- (next_segment_eq i segments Hi Hint).
    repeat f_equal; exact_index.
Qed.

Lemma cylinder_block_length (radius height : F) (segments i : Z) :
  length (cylinder_block cosf sinf radius height segments i) = 56%nat.
Proof. reflexivity. Qed.

(** Attribute [off] of the vertex number [c] (0 to 3) of segment [i]. *)
Lemma cylinder_attribute (radius height : F) (segments tex : Z) (m : Mesh F) (i c off : Z) :
  vertices m
  = cylinder_centres height
    ++ flat_map (cylinder_block cosf sinf radius height segments) (range segments) ->
  0 <= i < segments -> 0 <= c < 4 -> 0 <= off < 14 ->
  attribute m (2 + 4 * i + c) off
  = nth_error (cylinder_block cosf sinf radius height segments i) (Z.to_nat (14 * c + off)).
Proof.
  intros Hv Hi Hc Hoff. unfold attribute. rewrite Hv.
  replace (Z.to_nat (stride * (2 + 4 * i + c) + off))
    with (28 + (56 * Z.to_nat i + Z.to_nat (14 * c + off)))%nat by (unfold stride; lia).
  rewrite nth_error_app2 by (cbn [cylinder_centres length app]; lia).
  replace (28 + (56 * Z.to_nat i + Z.to_nat (14 * c + off)) - length (cylinder_centres height))%nat
    with (56 * Z.to_nat i + Z.to_nat (14 * c + off))%nat
    by (cbn [cylinder_centres length app]; lia).
  rewrite (nth_error_flat_map_uniform _ 56);
    [|intros a; apply cylinder_block_length | lia].
  rewrite nth_error_range by lia.
  rewrite Z2Nat.id by lia. reflexivity.
Qed.

End Layout.

(** The roof of a house has four segments. *)
Lemma generateCone_indices_witness :
  exists m, generateCone Scenes.cos_taylor Scenes.sin_taylor
              (Scenes.fl 7 2) (of_int 3) 4 0 = Returned m /\
    indices m = flat_map (cone_base_triangle 4) (range 4)
                ++ flat_map (cone_side_triangle 4) (range 4).
Proof.
  apply generateCone_indices. unfold INT_MAX. lia.
Defined.

(** X19. The index buffer of a cylinder of up to 2^30 - 1 segments is,
    segment after segment, the bottom-cap triangle at centre 0, the
    top-cap triangle at centre 1 and the two triangles of the side quad,
    each taken with the next segment modulo [segments]; cap triangles use
    only centre and rim vertices, side triangles only side vertices, and
    every index is stored without overflow. *)
Theorem generateCylinder_indices {F : Type} `{FloatOps F} (cosf sinf : F -> F)
    (radius height : F) (segments tex : Z) :
  0 <= segments <= 1073741823 ->
  exists m, generateCylinder cosf sinf radius height segments tex = Returned m /\
    indices m = flat_map (cylinder_triangles segments) (range segments).
Proof.
  intros Hseg.
  destruct (generateCylinder_layout cosf sinf radius height segments tex Hseg)
    as (m & Hm & Hidx & _).
  exists m. auto.
Qed.

Lemma generateCylinder_indices_witness :
  exists m, generateCylinder Scenes.cos_taylor Scenes.sin_taylor
              (Scenes.fl 3 2) (of_int 15) 32 0 = Returned m /\
    indices m = flat_map (cylinder_triangles 32) (range 32).
Proof.
  apply generateCylinder_indices. lia.
Defined.

(** X20. In a cylinder the cap and the side do not share vertices: for
    every segment the bottom-rim and side-bottom vertices have the same
    position, and so have the top-rim and side-top vertices, while the
    cap vertices carry the vertical normals (0, -1, 0) and (0, 1, 0) and
    both side vertices carry the normalised radial direction. *)
Theorem generateCylinder_duplicated_rim {F : Type} `{FloatOps F} (cosf sinf : F -> F)
    (radius height : F) (segments tex : Z) (i : Z) :
  0 <= i < segments ->
  segments <= 1073741823 ->
  exists m, generateCylinder cosf sinf radius height segments tex = Returned m /\
    let x := fst (rim_point cosf sinf radius segments i) in
    let z := snd (rim_point cosf sinf radius segments i) in
    let n := normalize (mkvec3 x (of_int 0) z) in
    attribute3 m (2 + 4 * i + 0) 0 = Some (x, of_int 0, z) /\
    attribute3 m (2 + 4 * i + 2) 0 = Some (x, of_int 0, z) /\
    attribute3 m (2 + 4 * i + 1) 0 = Some (x, height, z) /\
    attribute3 m (2 + 4 * i + 3) 0 = Some (x, height, z) /\
    attribute3 m (2 + 4 * i + 0) 3 = Some (of_int 0, fneg (of_int 1), of_int 0) /\
    attribute3 m (2 + 4 * i + 1) 3 = Some (of_int 0, of_int 1, of_int 0) /\
    attribute3 m (2 + 4 * i + 2) 3 = Some (vec_x n, vec_y n, vec_z n) /\
    attribute3 m (2 + 4 * i + 3) 3 = Some (vec_x n, vec_y n, vec_z n).
Proof.
  intros Hi Hseg.
  destruct (generateCylinder_layout cosf sinf radius height segments tex) as (m & Hm & _ & Hv);
    [lia|].
  exists m. split; [exact Hm|]. cbv zeta.
  unfold attribute3.
  rewrite !(cylinder_attribute cosf sinf radius height segments tex m i _ _ Hv Hi) by lia.
  repeat split; reflexivity.
Qed.

Lemma generateCylinder_duplicated_rim_witness :
  exists m, generateCylinder Scenes.cos_taylor Scenes.sin_taylor
              (Scenes.fl 3 2) (of_int 15) 32 0 = Returned m /\
    let x := fst (rim_point Scenes.cos_taylor Scenes.sin_taylor (Scenes.fl 3 2) 32 5) in
    let z := snd (rim_point Scenes.cos_taylor Scenes.sin_taylor (Scenes.fl 3 2) 32 5) in
    let n := normalize (mkvec3 x (of_int 0) z) in
    attribute3 m (2 + 4 * 5 + 0) 0 = Some (x, of_int 0, z) /\
    attribute3 m (2 + 4 * 5 + 2) 0 = Some (x, of_int 0, z) /\
    attribute3 m (2 + 4 * 5 + 1) 0 = Some (x, of_int 15, z) /\
    attribute3 m (2 + 4 * 5 + 3) 0 = Some (x, of_int 15, z) /\
    attribute3 m (2 + 4 * 5 + 0) 3 = Some (of_int 0, fneg (of_int 1), of_int 0) /\
    attribute3 m (2 + 4 * 5 + 1) 3 = Some (of_int 0, of_int 1, of_int 0) /\
    attribute3 m (2 + 4 * 5 + 2) 3 = Some (vec_x n, vec_y n, vec_z n) /\
    attribute3 m (2 + 4 * 5 + 3) 3 = Some (vec_x n, vec_y n, vec_z n).
Proof.
  apply (generateCylinder_duplicated_rim Scenes.cos_taylor Scenes.sin_taylor
           (Scenes.fl 3 2) (of_int 15) 32 0 5); lia.
Defined.

(** ** Terrain: a flat grid *)

Lemma nth_error_concat_uniform {A : Type} (n : nat) (blocks : list (list A)) (k off : nat) :
  Forall (fun b => length b = n) blocks -> (off < n)%nat ->
  nth_error (concat blocks) (n * k + off)
  = match nth_error blocks k with
    | Some b => nth_error b off
    | None => None
    end.
Proof.
  intros Hall Hoff. revert k. induction Hall as [|b rest Hb _ IH]; intros k; cbn [concat].
  - destruct k; destruct (n * _ + off)%nat; reflexivity.
  - destruct k as [|k]; cbn [nth_error].
    + rewrite Nat.mul_0_r, Nat.add_0_l. apply nth_error_app1. rewrite Hb. exact Hoff.
    + rewrite nth_error_app2 by (rewrite Hb; nia).
      rewrite Hb. replace (n * S k + off - n)%nat with (n * k + off)%nat by nia.
      apply IH.
Qed.

Lemma length_concat_uniform {A : Type} (n : nat) (blocks : list (list A)) :
  Forall (fun b => length b = n) blocks ->
  length (concat blocks) = (n * length blocks)%nat.
Proof.
  induction 1 as [|b rest Hb _ IH]; cbn [concat length].
  - lia.
  - rewrite length_app, Hb, IH. lia.
Qed.

Section VertexBlocks.

Context {F : Type} `{FloatOps F}.

Lemma every_vertex_insert_end (Q : list F -> Prop) (m : Mesh F) (b : list F) :
  every_vertex Q m -> length b = 14%nat -> Q b -> every_vertex Q (insert_end m b).
Proof.
  intros (blocks & Hv & Hall) Hlen HQ. exists (blocks ++ [b]). split.
  - cbn [insert_end vertices]. rewrite Hv, concat_app. cbn [concat].
    rewrite app_nil_r. reflexivity.
  - apply Forall_app. split; [exact Hall|]. constructor; [auto | constructor].
Qed.

(** Reading vertex [k] of a mesh whose vertices all satisfy [Q]. *)
Lemma every_vertex_attribute (Q : list F -> Prop) (m : Mesh F) (k : Z) :
  every_vertex Q m -> 0 <= k < vertex_count m ->
  exists b, length b = 14%nat /\ Q b /\
            forall off, 0 <= off < 14 -> attribute m k off = nth_error b (Z.to_nat off).
Proof.
  intros (blocks & Hv & Hall) Hk.
  assert (Hlen : Forall (fun b : list F => length b = 14%nat) blocks).
  { eapply Forall_impl; [|exact Hall]. cbn. intros b [Hb _]. exact Hb. }
  assert (Hcount : vertex_count m = Z.of_nat (length blocks)).
  { unfold vertex_count, stride. rewrite Hv, (length_concat_uniform 14) by exact Hlen.
    rewrite Nat2Z.inj_mul, Z.mul_comm. apply Z.div_mul. lia. }
  rewrite Hcount in Hk.
  destruct (nth_error blocks (Z.to_nat k)) as [b|] eqn:Hb.
  - exists b. pose proof (nth_error_In _ _ Hb) as Hin.
    rewrite Forall_forall in Hall. destruct (Hall b Hin) as [Hb14 HQ].
    split; [exact Hb14|]. split; [exact HQ|].
    intros off Hoff. unfold attribute. rewrite Hv.
    replace (Z.to_nat (stride * k + off)) with (14 * Z.to_nat k + Z.to_nat off)%nat
      by (unfold stride; lia).
    rewrite (nth_error_concat_uniform 14) by (assumption || lia).
    rewrite Hb. reflexivity.
  - apply nth_error_None in Hb. lia.
Qed.

Lemma generateTerrain_flat_vertices (width depth tex heightTex : Z) :
  0 <= width < INT_MAX -> 0 <= depth < INT_MAX ->
  exists m, generateTerrain (F := F) width depth tex heightTex = Returned m /\
    every_vertex flat_vertex m.
Proof.
  intros [Hw Hw'] [Hd Hd']. unfold generateTerrain, for_range_incl. cbv zeta.
  eexists. split; [reflexivity|].
  assert (Htex : forall m : Mesh F,
            every_vertex flat_vertex m -> every_vertex flat_vertex (set_texture m tex)).
  { intros m Hm. exact Hm. }
  apply Htex. clear Htex.
  apply (for_range_invariant (fun (_ : Z) (m : Mesh F) => every_vertex flat_vertex m));
    [exact Hd| |].
  - apply (for_range_invariant (fun (_ : Z) (m : Mesh F) => every_vertex flat_vertex m));
      [lia| |].
    + exists []. split; [reflexivity | constructor].
    + intros z acc Hz Hacc.
      apply (for_range_invariant (fun (_ : Z) (m : Mesh F) => every_vertex flat_vertex m));
        [lia | exact Hacc |].
      intros x acc' Hx Hacc'.
      apply every_vertex_insert_end; [exact Hacc' | reflexivity |].
      repeat split.
  - intros z acc Hz Hacc.
    apply (for_range_invariant (fun (_ : Z) (m : Mesh F) => every_vertex flat_vertex m));
      [exact Hw | exact Hacc |].
    intros x acc' Hx Hacc'. exact Hacc'.
Qed.

End VertexBlocks.

(** X21. The terrain grid is generated flat: every vertex of
    [generateTerrain] has height coordinate 0, normal (0, 1, 0), tangent
    (1, 0, 0) and bitangent (0, 0, 1), so the mesh itself carries no
    elevation. *)
Theorem generateTerrain_is_flat {F : Type} `{FloatOps F} (width depth tex heightTex : Z)
    (k : Z) :
  0 <= width < INT_MAX ->
  0 <= depth < INT_MAX ->
  0 <= k < (width + 1) * (depth + 1) ->
  exists m, generateTerrain (F := F) width depth tex heightTex = Returned m /\
    attribute m k 1 = Some (of_int 0) /\
    attribute3 m k 3 = Some (of_int 0, of_int 1, of_int 0) /\
    attribute3 m k 8 = Some (of_int 1, of_int 0, of_int 0) /\
    attribute3 m k 11 = Some (of_int 0, of_int 0, of_int 1).
Proof.
  intros Hw Hd Hk.
  destruct (generateTerrain_flat_vertices (F := F) width depth tex heightTex Hw Hd)
    as (m & Hm & Hflat).
  destruct (generateTerrain_shape (F := F) width depth tex heightTex Hw Hd)
    as (m' & Hm' & Hshape & _).
  rewrite Hm in Hm'. injection Hm' as <-.
  destruct (well_indexed_counts _ _ _ Hshape) as (Hcount & _).
  exists m. split; [exact Hm|].
  rewrite <- Hcount in Hk.
  destruct (every_vertex_attribute flat_vertex m k Hflat Hk)
    as (b & Hlen & (Hy & Hn & Htb) & Hattr).
  unfold attribute3. rewrite !Hattr by lia.
  do 15 (destruct b as [|? b]; try discriminate Hlen).
  cbn in Hy, Hn, Htb |- *.
  injection Hy as ->. injection Hn as -> -> ->. injection Htb as -> -> -> -> -> ->.
  repeat split; reflexivity.
Qed.

(** The middle vertex of the terrain of [main]. *)
Lemma generateTerrain_is_flat_witness :
  exists m, generateTerrain (F := spec_float) 100 100 3 4 = Returned m /\
    attribute m 5100 1 = Some (of_int 0) /\
    attribute3 m 5100 3 = Some (of_int 0, of_int 1, of_int 0) /\
    attribute3 m 5100 8 = Some (of_int 1, of_int 0, of_int 0) /\
    attribute3 m 5100 11 = Some (of_int 0, of_int 0, of_int 1).
Proof.
  apply generateTerrain_is_flat; unfold INT_MAX; lia.
Defined.

(** ** Where the vertices are *)

Lemma length_range (n : Z) : length (range n) = Z.to_nat n.
Proof. unfold range. rewrite length_map, length_seq. reflexivity. Qed.

Lemma length_flat_map_uniform {A B : Type} (f : A -> list B) (b : nat) (l : list A) :
  (forall a, length (f a) = b) -> length (flat_map f l) = (b * length l)%nat.
Proof.
  intros Hlen. induction l as [|a l IH]; cbn [flat_map length].
  - lia.
  - rewrite length_app, Hlen, IH. lia.
Qed.

Section VertexLayout.

Context {F : Type} `{FloatOps F}.
Variables cosf sinf : F -> F.

Lemma generateTerrain_layout (width depth tex heightTex : Z) :
  0 <= width < INT_MAX -> 0 <= depth < INT_MAX ->
  exists m, generateTerrain (F := F) width depth tex heightTex = Returned m /\
    vertices m
    = flat_map (fun z => flat_map (terrain_vertex width depth z) (range (width + 1)))
               (range (depth + 1)).
Proof.
  intros [Hw Hw'] [Hd Hd']. unfold generateTerrain, for_range_incl. cbv zeta.
  eexists. split; [reflexivity|].
  cbn [set_texture vertices].
  set (row := fun z => flat_map (terrain_vertex (F := F) width depth z) (range (width + 1))).
  apply (for_range_invariant
           (fun (_ : Z) (m : Mesh F) => vertices m = flat_map row (range (depth + 1))));
    [exact Hd| |].
  - apply (for_range_invariant
             (fun z (m : Mesh F) => vertices m = flat_map row (range z)));
      [lia|reflexivity|].
    intros z acc Hz Hacc.
    rewrite flat_map_range_succ by lia.
    apply (for_range_invariant
             (fun x (m : Mesh F) =>
                vertices m = flat_map row (range z)
                             ++ flat_map (terrain_vertex width depth z) (range x)));
      [lia| |].
    + cbn [range Z.to_nat seq map flat_map]. rewrite app_nil_r. exact Hacc.
    + intros x acc' Hx Hacc'.
      rewrite flat_map_range_succ by lia.
      cbn [insert_end vertices]. rewrite Hacc', <- app_assoc. reflexivity.
  - intros z acc Hz Hacc.
    apply (for_range_invariant
             (fun (_ : Z) (m : Mesh F) => vertices m = flat_map row (range (depth + 1))));
      [exact Hw | exact Hacc |].
    intros x acc' Hx Hacc'. exact Hacc'.
Qed.

Lemma terrain_attribute (width depth : Z) (m : Mesh F) (x z off : Z) :
  vertices m
  = flat_map (fun z => flat_map (terrain_vertex width depth z) (range (width + 1)))
             (range (depth + 1)) ->
  0 <= x <= width -> 0 <= z <= depth -> 0 <= off < 14 ->
  attribute m (z * (width + 1) + x) off
  = nth_error (terrain_vertex width depth z x) (Z.to_nat off).
Proof.
  intros Hv Hx Hz Hoff. unfold attribute. rewrite Hv.
  replace (Z.to_nat (stride * (z * (width + 1) + x) + off))
    with ((14 * Z.to_nat (width + 1)) * Z.to_nat z + (14 * Z.to_nat x + Z.to_nat off))%nat.
  2:{ apply Nat2Z.inj. unfold stride.
      rewrite !Nat2Z.inj_add, !Nat2Z.inj_mul, !Z2Nat.id by nia.
      change (Z.of_nat 14) with 14. ring. }
  rewrite (nth_error_flat_map_uniform _ (14 * Z.to_nat (width + 1))).
  - rewrite nth_error_range by lia. rewrite Z2Nat.id by lia.
    rewrite (nth_error_flat_map_uniform _ 14); [|intros a; reflexivity | lia].
    rewrite nth_error_range by lia. rewrite Z2Nat.id by lia. reflexivity.
  - intros a. rewrite (length_flat_map_uniform _ 14) by (intros b; reflexivity).
    rewrite length_range. reflexivity.
  - lia.
Qed.

Lemma generateCone_layout (radius height : F) (segments tex : Z) :
  0 <= segments <= INT_MAX ->
  exists m, generateCone cosf sinf radius height segments tex = Returned m /\
    vertices m
    = cone_centres height
      ++ flat_map (cone_block cosf sinf radius height segments) (range segments).
Proof.
  intros [Hlo Hhi]. unfold generateCone. cbv zeta.
  eexists. split; [reflexivity|].
  cbn [set_texture vertices].
  set (V := cone_centres height
            ++ flat_map (cone_block cosf sinf radius height segments) (range segments)).
  apply (for_range_invariant (fun (_ : Z) (m : Mesh F) => vertices m = V));
    [exact Hlo| |].
  - apply (for_range_invariant (fun (_ : Z) (m : Mesh F) => vertices m = V));
      [exact Hlo| |].
    + unfold V.
      apply (for_range_invariant
               (fun i (m : Mesh F) =>
                  vertices m
                  = cone_centres height
                    ++ flat_map (cone_block cosf sinf radius height segments) (range i)));
        [exact Hlo| |].
      * cbn [range Z.to_nat seq map flat_map]. rewrite app_nil_r. reflexivity.
      * intros i acc Hi Hacc.
        rewrite flat_map_range_succ by lia.
        cbn [insert_end vertices]. rewrite Hacc, <- !app_assoc. reflexivity.
    + intros i acc Hi Hacc. exact Hacc.
  - intros i acc Hi Hacc. exact Hacc.
Qed.

(** Attribute [off] of the vertex number [c] (0: base rim, 1: side) of
    segment [i] of a cone. *)
Lemma cone_attribute (radius height : F) (segments : Z) (m : Mesh F) (i c off : Z) :
  vertices m
  = cone_centres height
    ++ flat_map (cone_block cosf sinf radius height segments) (range segments) ->
  0 <= i < segments -> 0 <= c < 2 -> 0 <= off < 14 ->
  attribute m (2 + 2 * i + c) off
  = nth_error (cone_block cosf sinf radius height segments i) (Z.to_nat (14 * c + off)).
Proof.
  intros Hv Hi Hc Hoff. unfold attribute. rewrite Hv.
  replace (Z.to_nat (stride * (2 + 2 * i + c) + off))
    with (28 + (28 * Z.to_nat i + Z.to_nat (14 * c + off)))%nat by (unfold stride; lia).
  rewrite nth_error_app2 by (cbn [cone_centres length app]; lia).
  replace (28 + (28 * Z.to_nat i + Z.to_nat (14 * c + off)) - length (cone_centres height))%nat
    with (28 * Z.to_nat i + Z.to_nat (14 * c + off))%nat
    by (cbn [cone_centres length app]; lia).
  rewrite (nth_error_flat_map_uniform _ 28); [|intros a; reflexivity | lia].
  rewrite nth_error_range by lia.
  rewrite Z2Nat.id by lia. reflexivity.
Qed.

End VertexLayout.

(** X22. The terrain grid is laid out row by row and centred on the
    origin: the vertex of column [x] in row [z] has number
    [z * (width + 1) + x], position
    [(x - width / 2, 0, z - depth / 2)] and texture coordinate
    [(10 * x / width, 10 * z / depth)]. *)
Theorem generateTerrain_grid {F : Type} `{FloatOps F} (width depth tex heightTex : Z)
    (x z : Z) :
  0 <= width < INT_MAX ->
  0 <= depth < INT_MAX ->
  0 <= x <= width ->
  0 <= z <= depth ->
  exists m, generateTerrain (F := F) width depth tex heightTex = Returned m /\
    attribute3 m (z * (width + 1) + x) 0
    = Some (fsub (of_int x) (fdiv (of_int width) (of_int 2)), of_int 0,
            fsub (of_int z) (fdiv (of_int depth) (of_int 2))) /\
    attribute m (z * (width + 1) + x) 6
    = Some (fmul (fdiv (of_int x) (of_int width)) (of_int 10)) /\
    attribute m (z * (width + 1) + x) 7
    = Some (fmul (fdiv (of_int z) (of_int depth)) (of_int 10)).
Proof.
  intros Hw Hd Hx Hz.
  destruct (generateTerrain_layout (F := F) width depth tex heightTex Hw Hd) as (m & Hm & Hv).
  exists m. split; [exact Hm|].
  unfold attribute3.
  rewrite !(terrain_attribute width depth m x z _ Hv Hx Hz) by lia.
  repeat split; reflexivity.
Qed.

(** The last vertex of the terrain of [main]: the corner (50, 0, 50). *)
Lemma generateTerrain_grid_witness :
  exists m, generateTerrain (F := spec_float) 100 100 3 4 = Returned m /\
    attribute3 m (100 * (100 + 1) + 100) 0
    = Some (fsub (of_int 100) (fdiv (of_int 100) (of_int 2)), of_int 0,
            fsub (of_int 100) (fdiv (of_int 100) (of_int 2))) /\
    attribute m (100 * (100 + 1) + 100) 6
    = Some (fmul (fdiv (of_int 100) (of_int 100)) (of_int 10)) /\
    attribute m (100 * (100 + 1) + 100) 7
    = Some (fmul (fdiv (of_int 100) (of_int 100)) (of_int 10)).
Proof.
  apply generateTerrain_grid; unfold INT_MAX; lia.
Defined.

(** X23. In a cone, vertex 0 is the base centre at the origin and
    vertex 1 the apex at (0, height, 0) with normal (0, 1, 0); for every
    segment the base-rim vertex and the side vertex lie at the same rim
    point in the base plane, the first with the normal (0, -1, 0) of the
    base and the second with the normalised slanted normal
    (x, radius / height, z). *)
Theorem generateCone_vertices {F : Type} `{FloatOps F} (cosf sinf : F -> F)
    (radius height : F) (segments tex : Z) (i : Z) :
  0 <= i < segments ->
  segments <= INT_MAX ->
  exists m, generateCone cosf sinf radius height segments tex = Returned m /\
    let x := fst (rim_point cosf sinf radius segments i) in
    let z := snd (rim_point cosf sinf radius segments i) in
    let n := normalize (mkvec3 x (fdiv radius height) z) in
    attribute3 m 0 0 = Some (of_int 0, of_int 0, of_int 0) /\
    attribute3 m 1 0 = Some (of_int 0, height, of_int 0) /\
    attribute3 m 1 3 = Some (of_int 0, of_int 1, of_int 0) /\
    attribute3 m (2 + 2 * i + 0) 0 = Some (x, of_int 0, z) /\
    attribute3 m (2 + 2 * i + 1) 0 = Some (x, of_int 0, z) /\
    attribute3 m (2 + 2 * i + 0) 3 = Some (of_int 0, fneg (of_int 1), of_int 0) /\
    attribute3 m (2 + 2 * i + 1) 3 = Some (vec_x n, vec_y n, vec_z n).
Proof.
  intros Hi Hseg.
  destruct (generateCone_layout cosf sinf radius height segments tex) as (m & Hm & Hv);
    [lia|].
  exists m. split; [exact Hm|]. cbv zeta.
  split; [unfold attribute3, attribute; rewrite Hv; reflexivity|].
  split; [unfold attribute3, attribute; rewrite Hv; reflexivity|].
  split; [unfold attribute3, attribute; rewrite Hv; reflexivity|].
  unfold attribute3.
  rewrite !(cone_attribute cosf sinf radius height segments m i _ _ Hv Hi) by lia.
  repeat split; reflexivity.
Qed.

Lemma generateCone_vertices_witness :
  exists m, generateCone Scenes.cos_taylor Scenes.sin_taylor
              (Scenes.fl 7 2) (of_int 3) 4 0 = Returned m /\
    let x := fst (rim_point Scenes.cos_taylor Scenes.sin_taylor (Scenes.fl 7 2) 4 3) in
    let z := snd (rim_point Scenes.cos_taylor Scenes.sin_taylor (Scenes.fl 7 2) 4 3) in
    let n := normalize (mkvec3 x (fdiv (Scenes.fl 7 2) (of_int 3)) z) in
    attribute3 m 0 0 = Some (of_int 0, of_int 0, of_int 0) /\
    attribute3 m 1 0 = Some (of_int 0, of_int 3, of_int 0) /\
    attribute3 m 1 3 = Some (of_int 0, of_int 1, of_int 0) /\
    attribute3 m (2 + 2 * 3 + 0) 0 = Some (x, of_int 0, z) /\
    attribute3 m (2 + 2 * 3 + 1) 0 = Some (x, of_int 0, z) /\
    attribute3 m (2 + 2 * 3 + 0) 3 = Some (of_int 0, fneg (of_int 1), of_int 0) /\
    attribute3 m (2 + 2 * 3 + 1) 3 = Some (vec_x n, vec_y n, vec_z n).
Proof.
  apply (generateCone_vertices Scenes.cos_taylor Scenes.sin_taylor
           (Scenes.fl 7 2) (of_int 3) 4 0 3); unfold INT_MAX; lia.
Defined.
